(** * usbrly08: the USB-RLY08 protocol codec

    A shallow embedding of the class [usbrly] of [usbrly08.py] and the
    properties of its six operations.  The serial port object handed to
    the constructor is kept abstract behind the [ByteChannel] interface;
    every call the codec makes on it is recorded in a log, so that what
    is written, what is read, and in which order, can be stated. *)

From Stdlib Require Import ZArith List String Ascii Strings.Byte Bool Lia.
From Stdlib Require Import DecimalString.
From Stdlib Require HexadecimalString.
Import ListNotations.

Local Open Scope string_scope.
Local Open Scope list_scope.
Local Open Scope Z_scope.

(** ** Python values and exceptions *)

(** A Python [bytes] object, as [fd.read] returns it. *)
Definition bytes := list byte.

(** The dynamically typed argument of [set_states]; the method inspects
    [type(states)], so the tag is part of the model. *)
Inductive pyval :=
| PyInt (z : Z)
| PyBool (b : bool)
| PyStr (s : string)
| PyNone.

(** The exceptions that can leave a method of [usbrly].  [ChannelError]
    stands for whatever the channel object itself raises. *)
Inductive exn :=
| ValueError (msg : string)
| OSError (msg : string)
| UnicodeDecodeError (codec : string) (obj : bytes) (start stop : nat) (reason : string)
| StructError (msg : string)
| IndexError (msg : string)
| KeyError (key : string)
| ChannelError (msg : string).

(** What a call produces: the raised exception or the returned value. *)
Definition result (A : Type) : Type := (exn + A)%type.

(** ** The byte channel *)

(** The object stored in [self.fd].  Both methods may raise, and both
    may change the channel; [read n] hands back the bytes it got. *)
Class ByteChannel (C : Type) := {
  write : C -> list Z -> (string + unit) * C;
  read : C -> nat -> (string + bytes) * C
}.

(** Objects live in a store and are named by their address. *)
Definition loc := nat.

(** The instance attributes of a [usbrly] object: [__init__] stores the
    reference it is given in [self.fd]. *)
Record usbrly := { fd : loc }.

(** A call made on a channel object. *)
Inductive event :=
| EvWrite (l : loc) (data : list Z)
| EvRead (l : loc) (size : nat).

(** The state a method runs in: the receiver, the store of channel
    objects, and the calls made on them so far. *)
Record world (C : Type) := {
  self : usbrly;
  heap : loc -> C;
  log : list event
}.
Arguments self {C} _.
Arguments heap {C} _.
Arguments log {C} _.

Definition upd {C : Type} (h : loc -> C) (l : loc) (c : C) : loc -> C :=
  fun l' => if Nat.eqb l' l then c else h l'.

(** ** The method monad: state with exceptions *)

Definition M (C A : Type) : Type := world C -> result A * world C.

Definition ret {C A} (a : A) : M C A := fun w => (inr a, w).

Definition raise {C A} (e : exn) : M C A := fun w => (inl e, w).

Definition bind {C A B} (m : M C A) (k : A -> M C B) : M C B :=
  fun w =>
    match m w with
    | (inl e, w') => (inl e, w')
    | (inr a, w') => k a w'
    end.

Declare Scope py_scope.
Delimit Scope py_scope with py.
Notation "x <- m ;; k" := (bind m (fun x => k))
  (at level 100, m at next level, right associativity) : py_scope.
Notation "m ;; k" := (bind m (fun _ => k))
  (at level 100, right associativity) : py_scope.
Local Open Scope py_scope.

(** [self.fd] *)
Definition self_fd {C} : M C loc := fun w => (inr (fd (self w)), w).

(** The world after a call [ev] on the channel object at [l], which the
    call left as [c']. *)
Definition called {C} (l : loc) (c' : C) (ev : event) (w : world C) : world C :=
  {| self := self w; heap := upd (heap w) l c'; log := log w ++ [ev] |}.

(** [f.write(data)] on the channel object at [l]. *)
Definition chan_write {C} `{ByteChannel C} (l : loc) (data : list Z) : M C unit :=
  fun w =>
    let (r, c') := write (heap w l) data in
    let w' := called l c' (EvWrite l data) w in
    match r with
    | inl msg => (inl (ChannelError msg), w')
    | inr tt => (inr tt, w')
    end.

(** [f.read(size)] on the channel object at [l]. *)
Definition chan_read {C} `{ByteChannel C} (l : loc) (size : nat) : M C bytes :=
  fun w =>
    let (r, c') := read (heap w l) size in
    let w' := called l c' (EvRead l size) w in
    match r with
    | inl msg => (inl (ChannelError msg), w')
    | inr bs => (inr bs, w')
    end.

(** [self.fd.write(data)] and [self.fd.read(size)] *)
Definition fd_write {C} `{ByteChannel C} (data : list Z) : M C unit :=
  f <- self_fd ;; chan_write f data.

Definition fd_read {C} `{ByteChannel C} (size : nat) : M C bytes :=
  f <- self_fd ;; chan_read f size.

(** ** Library functions the class uses *)

(** ["%d" % z] *)
Definition fmt_d (z : Z) : string := NilZero.string_of_int (Z.to_int z).

(** The unsigned value of a byte, as [struct] format [B] reads it. *)
Definition byte_val (b : byte) : Z := Z.of_N (Byte.to_N b).

(** [struct.unpack(fmt, data)] for a format made of [count] codes [B]:
    the buffer must hold exactly that many bytes. *)
Definition struct_unpack_B (count : nat) (data : bytes) : result (list Z) :=
  if Nat.eqb (List.length data) count
  then inr (map byte_val data)
  else inl (StructError ("unpack requires a buffer of "
                           ++ fmt_d (Z.of_nat count) ++ " bytes")).

(** [t[i]] on a tuple. *)
Definition tuple_get (t : list Z) (i : nat) : result Z :=
  match nth_error t i with
  | Some z => inr z
  | None => inl (IndexError "tuple index out of range")
  end.

Definition is_ascii (b : byte) : bool := byte_val b <? 128.

(** Index of the first byte that is not ASCII, counted from [i]. *)
Fixpoint first_non_ascii (i : nat) (data : bytes) : option nat :=
  match data with
  | [] => None
  | b :: rest => if is_ascii b then first_non_ascii (S i) rest else Some i
  end.

Definition text_of (data : bytes) : string :=
  string_of_list_ascii (map ascii_of_byte data).

(** [data.decode('ascii')], strict. *)
Definition decode_ascii (data : bytes) : result string :=
  match first_non_ascii 0 data with
  | None => inr (text_of data)
  | Some i =>
      inl (UnicodeDecodeError "ascii" data i (S i) "ordinal not in range(128)")
  end.

Definition lift {C A} (r : result A) : M C A := fun w => (r, w).

(** ** The class [usbrly] *)

(** Definitions command bytes *)
Definition CMDS : list (string * Z) :=
  [ ("GET_SERIAL", 56);
    ("GET_SW_VERSION", 90);
    ("GET_STATES", 91);
    ("SET_STATES", 92);
    ("ALL_ON", 100);
    ("FIRST_ON", 101);
    ("ALL_OFF", 110);
    ("FIRST_OFF", 111) ].

Fixpoint dict_get (d : list (string * Z)) (key : string) : option Z :=
  match d with
  | [] => None
  | (k, v) :: rest => if String.eqb k key then Some v else dict_get rest key
  end.

(** [self.CMDS[key]] *)
Definition cmd {C} (key : string) : M C Z :=
  match dict_get CMDS key with
  | Some v => ret v
  | None => raise (KeyError key)
  end.

Section Methods.
Context {C : Type} `{ByteChannel C}.

(** [usbrly.set_state]: the range guard comes first, then the control
    byte, then the one write. *)
Definition set_state (relay : Z) (state : bool) : M C unit :=
  if (relay <? 0) || (relay >? 7) then
    raise (ValueError ("Given relay value " ++ fmt_d relay ++ " is out of range"))
  else
    controlByte <- (if state
                    then (b <- cmd "FIRST_ON" ;; ret (b + relay))
                    else (b <- cmd "FIRST_OFF" ;; ret (b + relay))) ;;
    fd_write [controlByte].

(** [usbrly.set_states]: the type test, the range guard, then the write
    of the opcode and the mask. *)
Definition set_states (states : pyval) : M C unit :=
  match states with
  | PyInt n =>
      if (n <? 0) || (n >? 255) then
        raise (ValueError "states must be a in range of [0, 255]")
      else
        op <- cmd "SET_STATES" ;;
        fd_write [op; n]
  | _ => raise (ValueError "states must be given as an int")
  end.

(** [usbrly.get_states]: [struct.unpack('B', states)[0]] after the
    length test. *)
Definition get_states : M C Z :=
  op <- cmd "GET_STATES" ;;
  fd_write [op] ;;
  states <- fd_read 1 ;;
  if negb (Nat.eqb (List.length states) 1) then
    raise (OSError "get_states failed to read the requested number of bytes")
  else
    t <- lift (struct_unpack_B 1 states) ;;
    lift (tuple_get t 0).

(** [usbrly.set_all] *)
Definition set_all (state : bool) : M C unit :=
  controlByte <- (if state then cmd "ALL_ON" else cmd "ALL_OFF") ;;
  fd_write [controlByte].

(** [usbrly.get_serial]: [serial.decode('ascii')] after the length
    test. *)
Definition get_serial : M C string :=
  op <- cmd "GET_SERIAL" ;;
  fd_write [op] ;;
  serial <- fd_read 8 ;;
  if negb (Nat.eqb (List.length serial) 8) then
    raise (OSError "get_serial failed to read the requested number of bytes")
  else
    lift (decode_ascii serial).

(** [usbrly.get_sw_version]: [struct.unpack("BB", version)] after the
    length test. *)
Definition get_sw_version : M C (list Z) :=
  op <- cmd "GET_SW_VERSION" ;;
  fd_write [op] ;;
  version <- fd_read 2 ;;
  if negb (Nat.eqb (List.length version) 2) then
    raise (OSError "get_sw_version failed to read the requested number of bytes")
  else
    lift (struct_unpack_B 2 version).

End Methods.

(** The channel object the receiver's [fd] attribute refers to. *)
Definition chan {C} (w : world C) : C := heap w (fd (self w)).


(** ** A recording fake channel *)

(** It keeps every byte it is given, can be told to refuse writes, and
    answers successive reads from a script. *)
Record FakeChannel := {
  written : list Z;
  write_error : option string;
  replies : list (string + bytes)
}.

Definition fake_write (c : FakeChannel) (data : list Z) : (string + unit) * FakeChannel :=
  match write_error c with
  | Some msg => (inl msg, c)
  | None =>
      (inr tt, {| written := written c ++ data;
                  write_error := None;
                  replies := replies c |})
  end.

Definition fake_read (c : FakeChannel) (size : nat) : (string + bytes) * FakeChannel :=
  match replies c with
  | [] => (inr [], c)
  | r :: rest =>
      let c' := {| written := written c;
                   write_error := write_error c;
                   replies := rest |} in
      match r with
      | inl msg => (inl msg, c')
      | inr bs => (inr (firstn size bs), c')
      end
  end.

#[export] Instance FakeChannel_ByteChannel : ByteChannel FakeChannel :=
  {| write := fake_write; read := fake_read |}.

(** A codec built on a fresh fake channel that will answer [script]. *)
Definition fake_world (script : list (string + bytes)) : world FakeChannel :=
  {| self := {| fd := 0%nat |};
     heap := fun _ => {| written := []; write_error := None; replies := script |};
     log := [] |}.

(** The same, on a channel whose writes raise. *)
Definition broken_world (msg : string) : world FakeChannel :=
  {| self := {| fd := 0%nat |};
     heap := fun _ => {| written := []; write_error := Some msg; replies := [] |};
     log := [] |}.

(** The bytes of the text [ABCD1234]. *)
Definition serial_ABCD1234 : bytes :=
  [x41; x42; x43; x44; x31; x32; x33; x34].

(** ** Every operation, as one call *)

Inductive method :=
| SetState (relay : Z) (state : bool)
| SetStates (states : pyval)
| GetStates
| SetAll (state : bool)
| GetSerial
| GetSwVersion.

(** What a method hands back. *)
Inductive retval :=
| RNone
| RInt (z : Z)
| RStr (s : string)
| RTuple (t : list Z).

Definition invoke {C} `{ByteChannel C} (m : method) : M C retval :=
  match m with
  | SetState relay state => set_state relay state ;; ret RNone
  | SetStates states => set_states states ;; ret RNone
  | GetStates => z <- get_states ;; ret (RInt z)
  | SetAll state => set_all state ;; ret RNone
  | GetSerial => s <- get_serial ;; ret (RStr s)
  | GetSwVersion => t <- get_sw_version ;; ret (RTuple t)
  end.

(** The three messages of the short-read checks. *)
Definition short_read (name : string) : exn :=
  OSError (name ++ " failed to read the requested number of bytes").

(** A request: one write of the opcode, then one read of [size] bytes. *)
Definition request {C} `{ByteChannel C} (op : Z) (size : nat) : M C bytes :=
  fd_write [op] ;; fd_read size.

(** How a method that ends in a write reports what the channel did: an
    exception of the channel leaves the method as it is. *)
Definition passed_on (r : string + unit) : result unit :=
  match r with
  | inl msg => inl (ChannelError msg)
  | inr _ => inr tt
  end.

(** What each query makes of the bytes it has read. *)
Definition states_of (states : bytes) : result Z :=
  if negb (Nat.eqb (List.length states) 1) then inl (short_read "get_states")
  else match struct_unpack_B 1 states with
       | inl e => inl e
       | inr t => tuple_get t 0
       end.

Definition serial_of (serial : bytes) : result string :=
  if negb (Nat.eqb (List.length serial) 8) then inl (short_read "get_serial")
  else decode_ascii serial.

Definition version_of (version : bytes) : result (list Z) :=
  if negb (Nat.eqb (List.length version) 2) then inl (short_read "get_sw_version")
  else struct_unpack_B 2 version.

(** The exception a call ended with, if any. *)
Definition failure {A : Type} (r : result A) : option exn :=
  match r with
  | inl e => Some e
  | inr _ => None
  end.

(** A call that started in [w], ended in [w'] and failed with [r] (or
    did not fail) kept to a single exchange: the receiver and every
    other object are as before; the channel saw nothing, one write, or
    one write and then one read; and a write the channel refused, a read
    it refused, or a read that came back short, ended the call there. *)
Definition one_exchange {C} `{ByteChannel C}
           (w : world C) (r : option exn) (w' : world C) : Prop :=
  let l := fd (self w) in
  self w' = self w
  /\ (forall l', l' <> l -> heap w' l' = heap w l')
  /\ exists evs,
      log w' = log w ++ evs
      /\ (evs = []
          \/ (exists data, evs = [EvWrite l data])
          \/ (exists data size, evs = [EvWrite l data; EvRead l size]))
      /\ (forall data rest msg c1,
            evs = EvWrite l data :: rest ->
            write (chan w) data = (inl msg, c1) ->
            rest = [] /\ r = Some (ChannelError msg))
      /\ (forall data size c1 msg c2,
            evs = [EvWrite l data; EvRead l size] ->
            write (chan w) data = (inr tt, c1) ->
            read c1 size = (inl msg, c2) ->
            r = Some (ChannelError msg))
      /\ (forall data size c1 bs c2,
            evs = [EvWrite l data; EvRead l size] ->
            write (chan w) data = (inr tt, c1) ->
            read c1 size = (inr bs, c2) ->
            (List.length bs < size)%nat ->
            exists msg, r = Some (OSError msg)).

(** ** The command line tool *)

(** [usbrly.__init__]: the new object keeps the reference it is given. *)
Definition __init__ {C} (s : loc) : M C unit :=
  fun w => (inr tt, {| self := {| fd := s |}; heap := heap w; log := log w |}).

(** The serial port [main] opens is a channel that can also be closed. *)
Class SerialPort (C : Type) `{ByteChannel C} := {
  close : C -> (string + unit) * C
}.

(** What [main] runs in: the codec object [r] with the store, the lines
    printed so far, and the ports [close] was called on. *)
Record process (C : Type) := {
  codec : world C;
  stdout : list string;
  closes : list loc
}.
Arguments codec {C} _.
Arguments stdout {C} _.
Arguments closes {C} _.

Definition IO (C A : Type) : Type := process C -> result A * process C.

Definition io_ret {C A} (a : A) : IO C A := fun p => (inr a, p).

Definition io_bind {C A B} (m : IO C A) (k : A -> IO C B) : IO C B :=
  fun p =>
    match m p with
    | (inl e, p') => (inl e, p')
    | (inr a, p') => k a p'
    end.

Declare Scope io_scope.
Delimit Scope io_scope with io.
Notation "x <- m ;; k" := (io_bind m (fun x => k))
  (at level 100, m at next level, right associativity) : io_scope.
Notation "m ;; k" := (io_bind m (fun _ => k))
  (at level 100, right associativity) : io_scope.

(** A method call on [r]. *)
Definition call {C A} (m : M C A) : IO C A :=
  fun p =>
    let (r, w') := m (codec p) in
    (r, {| codec := w'; stdout := stdout p; closes := closes p |}).

(** [print(line)] *)
Definition print {C} (line : string) : IO C unit :=
  fun p =>
    (inr tt, {| codec := codec p; stdout := stdout p ++ [line];
                closes := closes p |}).

(** [s.close()] *)
Definition port_close {C} `{SerialPort C} (s : loc) : IO C unit :=
  fun p =>
    let w := codec p in
    let (r, c') := close (heap w s) in
    let p' := {| codec := {| self := self w; heap := upd (heap w) s c';
                             log := log w |};
                 stdout := stdout p;
                 closes := closes p ++ [s] |} in
    match r with
    | inl msg => (inl (ChannelError msg), p')
    | inr _ => (inr tt, p')
    end.

(** [for x in xs: body] *)
Fixpoint for_each {C A} (xs : list A) (body : A -> IO C unit) : IO C unit :=
  match xs with
  | [] => io_ret tt
  | x :: rest => io_bind (body x) (fun _ => for_each rest body)
  end.

(** [range(lo, hi)] *)
Definition range (lo hi : Z) : list Z :=
  map (fun k => lo + Z.of_nat k) (seq 0 (Z.to_nat (hi - lo))).

(** The truth value of an [int]. *)
Definition truthy (z : Z) : bool := negb (z =? 0).

(** The digits of ["%x" % n] for a natural number. *)
Definition hex_digits (n : N) : string :=
  HexadecimalString.NilZero.string_of_uint (N.to_hex_uint n).

Fixpoint zeros (n : nat) : string :=
  match n with
  | O => ""
  | S k => String "0" (zeros k)
  end.

(** ["%.2x" % z]: the digits padded with zeros to two at least, the sign
    in front. *)
Definition fmt_x2 (z : Z) : string :=
  let digits := hex_digits (Z.abs_N z) in
  let body := (zeros (2 - String.length digits) ++ digits)%string in
  if z <? 0 then ("-" ++ body)%string else body.

(** The namespace [parse_args] returns, less the port and the timeout,
    which only serve to open the port. *)
Module Args.
Record t := {
  all_relays : option string;
  relay_on : option (list Z);
  relay_off : option (list Z);
  relays : bool;
  get_serial : bool;
  get_version : bool
}.
End Args.

Section Main.
Context {C : Type} `{SerialPort C}.
Local Open Scope io_scope.

(** Handle -a / --all-relays *)
Definition handle_all_relays (args : Args.t) : IO C unit :=
  match Args.all_relays args with
  | Some v =>
      if String.eqb v "on" then call (set_all true)
      else if String.eqb v "off" then call (set_all false)
      else io_ret tt
  | None => io_ret tt
  end.

(** Handle -n / --relay-on *)
Definition handle_relay_on (args : Args.t) : IO C unit :=
  match Args.relay_on args with
  | None | Some [] => io_ret tt
  | Some chosen => for_each chosen (fun relay => call (set_state relay true))
  end.

(** Handle -f / --relay-off *)
Definition handle_relay_off (args : Args.t) : IO C unit :=
  match Args.relay_off args with
  | None | Some [] => io_ret tt
  | Some chosen => for_each chosen (fun relay => call (set_state relay false))
  end.

(** Handle -g / --relays *)
Definition handle_relays (args : Args.t) : IO C unit :=
  if Args.relays args then
    states <- call get_states ;;
    print ("0x" ++ fmt_x2 states) ;;
    for_each (range 0 8)
             (fun i => print (fmt_d i ++ " "
                                ++ (if truthy (Z.land states (Z.shiftl 1 i))
                                    then "on" else "off")))
  else io_ret tt.

(** Handle -s / --get-serial *)
Definition handle_get_serial (args : Args.t) : IO C unit :=
  if Args.get_serial args then
    serial <- call get_serial ;;
    print serial
  else io_ret tt.

(** Handle -i / --get-version *)
Definition handle_get_version (args : Args.t) : IO C unit :=
  if Args.get_version args then
    version <- call get_sw_version ;;
    v0 <- call (lift (tuple_get version 0)) ;;
    v1 <- call (lift (tuple_get version 1)) ;;
    print (fmt_x2 v0 ++ " " ++ fmt_x2 v1)
  else io_ret tt.

(** [main], from the point where the arguments are parsed and the port
    [s] is open. *)
Definition main (args : Args.t) (s : loc) : IO C unit :=
  call (__init__ s) ;;
  handle_all_relays args ;;
  handle_relay_on args ;;
  handle_relay_off args ;;
  handle_relays args ;;
  handle_get_serial args ;;
  handle_get_version args ;;
  port_close s.

End Main.

(** The commands of [main]: all it does before it closes the port. *)
Definition commands {C : Type} `{ByteChannel C} (args : Args.t) (s : loc) : IO C unit :=
  (call (__init__ s) ;;
   handle_all_relays args ;;
   handle_relay_on args ;;
   handle_relay_off args ;;
   handle_relays args ;;
   handle_get_serial args ;;
   handle_get_version args)%io.

(** The relays an option of the command line names. *)
Definition chosen_relays (o : option (list Z)) : list Z :=
  match o with
  | Some chosen => chosen
  | None => []
  end.

(** The writes the control options of the command line stand for, in
    the order [main] takes them. *)
Definition control_writes (args : Args.t) (s : loc) : list event :=
  match Args.all_relays args with
  | Some v =>
      if String.eqb v "on" then [EvWrite s [100]]
      else if String.eqb v "off" then [EvWrite s [110]]
      else []
  | None => []
  end
  ++ map (fun relay => EvWrite s [101 + relay]) (chosen_relays (Args.relay_on args))
  ++ map (fun relay => EvWrite s [111 + relay]) (chosen_relays (Args.relay_off args)).

(** A channel that takes every write. *)
Definition accepting (C : Type) `{ByteChannel C} : Prop :=
  forall (c : C) (data : list Z), fst (write c data) = inr tt.

(** A step of [main] that returns normally, prints nothing, closes
    nothing, keeps the codec object and makes the calls [evs]. *)
Definition sends {C : Type} (m : IO C unit) (p : process C) (evs : list event) : Prop :=
  exists w',
    m p = (inr tt, {| codec := w'; stdout := stdout p; closes := closes p |})
    /\ self w' = self (codec p)
    /\ log w' = log (codec p) ++ evs.

(** A step of [main] that never closes a port. *)
Definition leaves_ports_open {C A : Type} (m : IO C A) : Prop :=
  forall p, closes (snd (m p)) = closes p.

(** A run that either failed with no port closed, or closed [s], once,
    as the last thing it did. *)
Definition closes_last {C A : Type} (s : loc) (m : IO C A) (p : process C) : Prop :=
  (closes (snd (m p)) = closes p /\ exists e, fst (m p) = inl e)
  \/ (closes (snd (m p)) = closes p ++ [s]
      /\ ((exists a, fst (m p) = inr a)
          \/ exists msg, fst (m p) = inl (ChannelError msg))).

(** The exceptions the tool can end with. *)
Definition cli_error (e : exn) : bool :=
  match e with
  | OSError _ | UnicodeDecodeError _ _ _ _ _ | ChannelError _ => true
  | _ => false
  end.

(** A step of [main] that can end only with exceptions [P] admits. *)
Definition raises_only {C A : Type} (P : exn -> bool) (m : IO C A) : Prop :=
  forall p e, fst (m p) = inl e -> P e = true.

(** The fake channel as a serial port: closing it always works. *)
#[export] Instance FakeChannel_SerialPort : SerialPort FakeChannel :=
  {| close := fun c => (inr tt, c) |}.

(** A process about to run [main] on a fresh fake port that will answer
    [script]. *)
Definition fake_process (script : list (string + bytes)) : process FakeChannel :=
  {| codec := fake_world script; stdout := []; closes := [] |}.

(** A port that takes every write and keeps the bytes, never has
    anything to read, and closes without complaint. *)
Definition Recorder := list Z.

#[export] Instance Recorder_ByteChannel : ByteChannel Recorder :=
  {| write := fun c data => (inr tt, c ++ data);
     read := fun c _ => (inr [], c) |}.

#[export] Instance Recorder_SerialPort : SerialPort Recorder :=
  {| close := fun c => (inr tt, c) |}.

(** A process about to run [main] on a fresh recorder. *)
Definition recorder_process : process Recorder :=
  {| codec := {| self := {| fd := 0%nat |}; heap := fun _ => []; log := [] |};
     stdout := []; closes := [] |}.

(** A process whose port refuses every write. *)
Definition broken_process (msg : string) : process FakeChannel :=
  {| codec := broken_world msg; stdout := []; closes := [] |}.

(** The options [-a on -n 1 -n 2 -f 7]. *)
Definition control_args : Args.t :=
  {| Args.all_relays := Some "on";
     Args.relay_on := Some [1; 2];
     Args.relay_off := Some [7];
     Args.relays := false;
     Args.get_serial := false;
     Args.get_version := false |}.

(** The options [-n 1 -g -i]. *)
Definition query_args : Args.t :=
  {| Args.all_relays := None;
     Args.relay_on := Some [1];
     Args.relay_off := None;
     Args.relays := true;
     Args.get_serial := false;
     Args.get_version := true |}.

(** ** What a call puts on the wire *)

(** The bytes a call hands to [write], if its guards let it through. *)
Definition wire (m : method) : option (list Z) :=
  match m with
  | SetState relay state =>
      if (relay <? 0) || (relay >? 7) then None
      else Some [if state then 101 + relay else 111 + relay]
  | SetStates (PyInt n) =>
      if (n <? 0) || (n >? 255) then None else Some [92; n]
  | SetStates _ => None
  | GetStates => Some [91]
  | SetAll state => Some [if state then 100 else 110]
  | GetSerial => Some [56]
  | GetSwVersion => Some [90]
  end.

(** The number of bytes a call asks for after its write. *)
Definition reply_size (m : method) : option nat :=
  match m with
  | GetStates => Some 1%nat
  | GetSerial => Some 8%nat
  | GetSwVersion => Some 2%nat
  | _ => None
  end.


(** * Properties *)

Section Properties.
Context {C : Type} `{ByteChannel C}.

(** ** How the channel calls run *)

Lemma chan_called (l : loc) (c' : C) (ev : event) (w : world C) :
  l = fd (self w) -> chan (called l c' ev w) = c'.
Proof.
  intros ->. unfold chan, called, upd. simpl. now rewrite Nat.eqb_refl.
Qed.

Lemma fd_write_run (data : list Z) (w : world C) :
  fd_write data w =
    (match fst (write (chan w) data) with
     | inl msg => inl (ChannelError msg)
     | inr _ => inr tt
     end,
     called (fd (self w)) (snd (write (chan w) data))
            (EvWrite (fd (self w)) data) w).
Proof.
  unfold fd_write, bind, self_fd, chan_write, chan.
  destruct (write (heap w (fd (self w))) data) as [[msg | []] c']; reflexivity.
Qed.

Lemma fd_read_run (size : nat) (w : world C) :
  fd_read size w =
    (match fst (read (chan w) size) with
     | inl msg => inl (ChannelError msg)
     | inr bs => inr bs
     end,
     called (fd (self w)) (snd (read (chan w) size))
            (EvRead (fd (self w)) size) w).
Proof.
  unfold fd_read, bind, self_fd, chan_read, chan.
  destruct (read (heap w (fd (self w))) size) as [[msg | bs] c']; reflexivity.
Qed.

Lemma request_refused (op : Z) (size : nat) (w : world C) (msg : string) (c1 : C) :
  write (chan w) [op] = (inl msg, c1) ->
  request op size w =
    (inl (ChannelError msg), called (fd (self w)) c1 (EvWrite (fd (self w)) [op]) w).
Proof.
  intros Hw. unfold request, bind. rewrite fd_write_run, Hw. reflexivity.
Qed.

Lemma request_sent (op : Z) (size : nat) (w : world C) (c1 c2 : C)
      (r : string + bytes) :
  write (chan w) [op] = (inr tt, c1) ->
  read c1 size = (r, c2) ->
  request op size w =
    (match r with
     | inl msg => inl (ChannelError msg)
     | inr bs => inr bs
     end,
     called (fd (self w)) c2 (EvRead (fd (self w)) size)
            (called (fd (self w)) c1 (EvWrite (fd (self w)) [op]) w)).
Proof.
  intros Hw Hr. unfold request, bind. rewrite fd_write_run, Hw.
  cbn [fst snd]. rewrite fd_read_run, chan_called by reflexivity.
  rewrite Hr. reflexivity.
Qed.

Lemma log_called2 (l : loc) (c1 c2 : C) (e1 e2 : event) (w : world C) :
  log (called l c2 e2 (called l c1 e1 w)) = log w ++ [e1; e2].
Proof. simpl. now rewrite <- app_assoc. Qed.

(** ** The methods, past their guards *)

Lemma set_state_eq (relay : Z) (state : bool) :
  0 <= relay <= 7 ->
  set_state relay state =
    fd_write [if state then 101 + relay else 111 + relay].
Proof.
  intros Hr. unfold set_state.
  replace ((relay <? 0) || (relay >? 7)) with false by lia.
  destruct state; reflexivity.
Qed.

Lemma set_state_rejects (relay : Z) (state : bool) :
  relay < 0 \/ 7 < relay ->
  set_state relay state =
    raise (ValueError ("Given relay value " ++ fmt_d relay ++ " is out of range")).
Proof.
  intros Hr. unfold set_state.
  replace ((relay <? 0) || (relay >? 7)) with true by lia.
  reflexivity.
Qed.

Lemma set_states_eq (m : Z) :
  0 <= m <= 255 -> set_states (PyInt m) = fd_write [92; m].
Proof.
  intros Hm. unfold set_states.
  replace ((m <? 0) || (m >? 255)) with false by lia.
  reflexivity.
Qed.

Lemma set_all_eq (state : bool) :
  set_all state = fd_write [if state then 100 else 110].
Proof. destruct state; reflexivity. Qed.

Lemma bind_assoc {A B D : Type} (m : M C A) (k : A -> M C B) (h : B -> M C D)
      (w : world C) :
  bind (bind m k) h w = bind m (fun a => bind (k a) h) w.
Proof. unfold bind. destruct (m w) as [[e | a] w']; reflexivity. Qed.

Lemma get_states_eq (w : world C) :
  get_states w = (states <- request 91 1 ;; lift (states_of states)) w.
Proof.
  unfold get_states, request. rewrite bind_assoc. unfold bind.
  destruct (cmd "GET_STATES" w) as [[e | op] w0] eqn:Hc; inversion Hc; subst.
  destruct (fd_write [91] w0) as [[e | u] w1]; trivial.
  destruct (fd_read 1 w1) as [[e | states] w2]; trivial.
  unfold states_of, lift, raise, short_read.
  destruct (negb (Datatypes.length states =? 1)%nat); trivial.
  destruct (struct_unpack_B 1 states); reflexivity.
Qed.

Lemma get_serial_eq (w : world C) :
  get_serial w = (serial <- request 56 8 ;; lift (serial_of serial)) w.
Proof.
  unfold get_serial, request. rewrite bind_assoc. unfold bind.
  destruct (cmd "GET_SERIAL" w) as [[e | op] w0] eqn:Hc; inversion Hc; subst.
  destruct (fd_write [56] w0) as [[e | u] w1]; trivial.
  destruct (fd_read 8 w1) as [[e | serial] w2]; trivial.
  unfold serial_of, lift, raise, short_read.
  destruct (negb (Datatypes.length serial =? 8)%nat); reflexivity.
Qed.

Lemma get_sw_version_eq (w : world C) :
  get_sw_version w = (version <- request 90 2 ;; lift (version_of version)) w.
Proof.
  unfold get_sw_version, request. rewrite bind_assoc. unfold bind.
  destruct (cmd "GET_SW_VERSION" w) as [[e | op] w0] eqn:Hc; inversion Hc; subst.
  destruct (fd_write [90] w0) as [[e | u] w1]; trivial.
  destruct (fd_read 2 w1) as [[e | version] w2]; trivial.
  unfold version_of, lift, raise, short_read.
  destruct (negb (Datatypes.length version =? 2)%nat); reflexivity.
Qed.

(** A query's result is its request's, with the bytes decoded. *)
Lemma query_result {A : Type} (op : Z) (size : nat) (k : bytes -> result A)
      (w : world C) :
  fst ((data <- request op size ;; lift (k data)) w)
    = match fst (request op size w) with
      | inl e => inl e
      | inr bs => k bs
      end.
Proof.
  unfold bind, lift. destruct (request op size w) as [[e | bs] w']; reflexivity.
Qed.

(** ** Commands without a response *)

Lemma set_state_run (relay : Z) (state : bool) (w : world C) :
  0 <= relay <= 7 ->
  set_state relay state w =
    fd_write [if state then 101 + relay else 111 + relay] w.
Proof. intros Hr. now rewrite set_state_eq. Qed.

(** C1: for a relay index in [0,7] and either state, [set_state] makes
    exactly one call on the channel, a write of the single byte
    [101 + relay] (on) or [111 + relay] (off), and no read; it returns
    normally when the channel takes the byte, and the only way it can
    fail is the channel's own exception.  The byte does reach the
    channel: the channel object is left in the state its [write] of
    that byte put it in. *)
Theorem set_state_writes_one_byte (relay : Z) (state : bool) (w : world C) :
  0 <= relay <= 7 ->
  let opcode := if state then 101 + relay else 111 + relay in
  log (snd (set_state relay state w))
    = log w ++ [EvWrite (fd (self w)) [opcode]]
  /\ fst (set_state relay state w) = passed_on (fst (write (chan w) [opcode]))
  /\ (forall c', write (chan w) [opcode] = (inr tt, c') ->
       fst (set_state relay state w) = inr tt)
  /\ chan (snd (set_state relay state w)) = snd (write (chan w) [opcode]).
Proof.
  intros Hr opcode. rewrite (set_state_eq relay state Hr), fd_write_run.
  fold opcode. cbn [fst snd]. repeat split.
  - intros c' Hw. rewrite Hw. reflexivity.
  - now apply chan_called.
Qed.

(** C2: a relay index outside [0,7] makes [set_state] raise
    [ValueError], a mask outside [0,255] makes [set_states] raise
    [ValueError], and in both cases the world is left exactly as it
    was: no call reaches the channel, so no byte is written. *)
Theorem out_of_range_rejected_before_write (w : world C) :
  (forall (relay : Z) (state : bool),
      relay < 0 \/ 7 < relay ->
      exists msg, set_state relay state w = (inl (ValueError msg), w))
  /\ (forall m : Z,
        m < 0 \/ 255 < m ->
        exists msg, set_states (PyInt m) w = (inl (ValueError msg), w)).
Proof.
  split.
  - intros relay state Hr. rewrite (set_state_rejects relay state Hr).
    eexists. reflexivity.
  - intros m Hm. unfold set_states.
    replace ((m <? 0) || (m >? 255)) with true by lia.
    eexists. reflexivity.
Qed.

(** C3: for a mask in [0,255], [set_states] makes exactly one call on
    the channel, a write of the two bytes [92; mask], and no read; it
    returns normally when the channel takes them.  The two bytes do
    reach the channel: the channel object is left in the state its
    [write] of them put it in. *)
Theorem set_states_writes_two_bytes (m : Z) (w : world C) :
  0 <= m <= 255 ->
  log (snd (set_states (PyInt m) w))
    = log w ++ [EvWrite (fd (self w)) [92; m]]
  /\ fst (set_states (PyInt m) w) = passed_on (fst (write (chan w) [92; m]))
  /\ (forall c', write (chan w) [92; m] = (inr tt, c') ->
       fst (set_states (PyInt m) w) = inr tt)
  /\ chan (snd (set_states (PyInt m) w)) = snd (write (chan w) [92; m]).
Proof.
  intros Hm. rewrite (set_states_eq m Hm), fd_write_run.
  cbn [fst snd]. repeat split.
  - intros c' Hw. rewrite Hw. reflexivity.
  - now apply chan_called.
Qed.

(** C7: [set_all True] makes exactly one call on the channel, a write
    of the single byte [100], and [set_all False] a write of the single
    byte [110]; neither reads, and for both inputs the call returns
    normally when the channel takes the byte.  The byte does reach the
    channel: the channel object is left in the state its [write] of
    that byte put it in. *)
Theorem set_all_writes_one_byte (state : bool) (w : world C) :
  let opcode := if state then 100 else 110 in
  log (snd (set_all state w)) = log w ++ [EvWrite (fd (self w)) [opcode]]
  /\ fst (set_all state w) = passed_on (fst (write (chan w) [opcode]))
  /\ (forall c', write (chan w) [opcode] = (inr tt, c') ->
       fst (set_all state w) = inr tt)
  /\ chan (snd (set_all state w)) = snd (write (chan w) [opcode]).
Proof.
  intros opcode. rewrite set_all_eq, fd_write_run.
  fold opcode. cbn [fst snd]. repeat split.
  - intros c' Hw. rewrite Hw. reflexivity.
  - now apply chan_called.
Qed.

(** C8: for a relay index in [0,7] and either base ([FIRST_ON] = 101 or
    [FIRST_OFF] = 111), the byte [set_state] writes, less the base,
    is the relay index again. *)
Theorem relay_index_round_trip (relay : Z) (state : bool) (w : world C) :
  0 <= relay <= 7 ->
  exists base opcode,
    dict_get CMDS (if state then "FIRST_ON" else "FIRST_OFF") = Some base
    /\ base = (if state then 101 else 111)
    /\ log (snd (set_state relay state w))
         = log w ++ [EvWrite (fd (self w)) [opcode]]
    /\ opcode = base + relay
    /\ opcode - base = relay.
Proof.
  intros Hr.
  assert (Hlog : log (snd (set_state relay state w))
                 = log w ++ [EvWrite (fd (self w))
                                     [if state then 101 + relay else 111 + relay]]).
  { rewrite set_state_run by exact Hr. now rewrite fd_write_run. }
  exists (if state then 101 else 111), (if state then 101 + relay else 111 + relay).
  destruct state; cbn [dict_get CMDS String.eqb]; repeat split;
    try exact Hlog; try lia; reflexivity.
Qed.

(** ** Commands with a response *)

(** The three ways a request can go. *)
Lemma request_cases (op : Z) (size : nat) (w : world C) :
  let l := fd (self w) in
  (exists msg c1,
      write (chan w) [op] = (inl msg, c1)
      /\ request op size w
         = (inl (ChannelError msg), called l c1 (EvWrite l [op]) w))
  \/ (exists c1 msg c2,
        write (chan w) [op] = (inr tt, c1)
        /\ read c1 size = (inl msg, c2)
        /\ request op size w
           = (inl (ChannelError msg),
              called l c2 (EvRead l size) (called l c1 (EvWrite l [op]) w)))
  \/ (exists c1 bs c2,
        write (chan w) [op] = (inr tt, c1)
        /\ read c1 size = (inr bs, c2)
        /\ request op size w
           = (inr bs,
              called l c2 (EvRead l size) (called l c1 (EvWrite l [op]) w))).
Proof.
  intros l. destruct (write (chan w) [op]) as [[msg | []] c1] eqn:Hw.
  - left. exists msg, c1. split; [reflexivity | now apply request_refused].
  - right. destruct (read c1 size) as [[msg | bs] c2] eqn:Hr.
    + left. exists c1, msg, c2. repeat split; trivial.
      now rewrite (request_sent op size w c1 c2 (inl msg)).
    + right. exists c1, bs, c2. repeat split; trivial.
      now rewrite (request_sent op size w c1 c2 (inr bs)).
Qed.

(** The calls a request makes: the write, and the read if the write
    went through. *)
Lemma request_log (op : Z) (size : nat) (w : world C) :
  let l := fd (self w) in
  log (snd (request op size w))
    = log w ++ EvWrite l [op]
               :: match fst (write (chan w) [op]) with
                  | inl _ => []
                  | inr _ => [EvRead l size]
                  end.
Proof.
  intros l.
  destruct (request_cases op size w)
    as [(msg & c1 & Hw & Hq) | [(c1 & msg & c2 & Hw & Hr & Hq)
                               | (c1 & bs & c2 & Hw & Hr & Hq)]];
    rewrite Hq, Hw; cbn [fst snd]; fold l;
    try apply log_called2; reflexivity.
Qed.

(** Whatever follows a request leaves the log alone when it neither
    writes nor reads. *)
Lemma after_request_log {A : Type} (op : Z) (size : nat)
      (k : bytes -> result A) (w : world C) :
  log (snd ((data <- request op size ;; lift (k data)) w))
    = log (snd (request op size w)).
Proof.
  unfold bind, lift. destruct (request op size w) as [[e | bs] w']; reflexivity.
Qed.

Lemma byte_val_range (b : byte) : 0 <= byte_val b <= 255.
Proof.
  unfold byte_val. pose proof (Byte.to_N_bounded b). lia.
Qed.

Lemma request_result (op : Z) (size : nat) (w : world C) (c1 c2 : C)
      (r : string + bytes) :
  write (chan w) [op] = (inr tt, c1) ->
  read c1 size = (r, c2) ->
  fst (request op size w)
    = match r with
      | inl msg => inl (ChannelError msg)
      | inr bs => inr bs
      end.
Proof.
  intros Hw Hr. now rewrite (request_sent op size w c1 c2 r Hw Hr).
Qed.

Lemma states_of_short (bs : bytes) :
  (List.length bs < 1)%nat -> states_of bs = inl (short_read "get_states").
Proof. destruct bs; simpl; [reflexivity | lia]. Qed.

Lemma states_of_one (b : byte) : states_of [b] = inr (byte_val b).
Proof. reflexivity. Qed.

Lemma states_of_ok (bs : bytes) (v : Z) :
  states_of bs = inr v -> exists b, bs = [b] /\ v = byte_val b.
Proof.
  destruct bs as [| b [| b' rest]]; try discriminate.
  intros Hv. exists b. split; [reflexivity | ].
  rewrite states_of_one in Hv. congruence.
Qed.

(** The length test of [get_states] is for exactly one byte, so a
    channel that hands back more than it was asked for is turned down
    as well. *)
Lemma states_of_long (b b' : byte) (rest : bytes) :
  states_of (b :: b' :: rest) = inl (short_read "get_states").
Proof. reflexivity. Qed.


(** *** Strict ASCII decoding *)



Lemma text_of_length (bs : bytes) : String.length (text_of bs) = List.length bs.
Proof.
  unfold text_of. induction bs as [| b rest IH]; simpl; congruence.
Qed.

(** Each character of the decoded text has the code of its byte. *)
Lemma text_of_codes (bs : bytes) :
  map (fun a => Z.of_N (N_of_ascii a)) (list_ascii_of_string (text_of bs))
    = map byte_val bs.
Proof.
  unfold text_of. rewrite list_ascii_of_string_of_list_ascii, map_map.
  apply map_ext. intros b. unfold byte_val.
  rewrite ascii_of_byte_via_N, N_ascii_embedding; [reflexivity | ].
  pose proof (Byte.to_N_bounded b). lia.
Qed.

Lemma serial_of_short (bs : bytes) :
  (List.length bs < 8)%nat -> serial_of bs = inl (short_read "get_serial").
Proof.
  intros Hlen. unfold serial_of.
  replace (Nat.eqb (List.length bs) 8) with false; [reflexivity | ].
  symmetry. apply Nat.eqb_neq. lia.
Qed.

Lemma serial_of_full (bs : bytes) :
  List.length bs = 8%nat -> serial_of bs = decode_ascii bs.
Proof. intros Hlen. unfold serial_of. now rewrite Hlen. Qed.


Lemma version_of_short (bs : bytes) :
  (List.length bs < 2)%nat -> version_of bs = inl (short_read "get_sw_version").
Proof. destruct bs as [| b [| b' rest]]; simpl; try reflexivity; lia. Qed.

Lemma version_of_ok (bs : bytes) (t : list Z) :
  version_of bs = inr t ->
  exists b0 b1, bs = [b0; b1] /\ t = [byte_val b0; byte_val b1].
Proof.
  destruct bs as [| b0 [| b1 [| b2 rest]]]; try discriminate.
  intros Ht. exists b0, b1. split; [reflexivity | ].
  cbv in Ht. inversion Ht. reflexivity.
Qed.


(** C10: whatever the channel does, a value [get_states] returns lies
    in [0,255], and a tuple [get_sw_version] returns has two
    components, both in [0,255]. *)
Theorem returned_bytes_in_range (w : world C) :
  (forall v, fst (get_states w) = inr v -> 0 <= v <= 255)
  /\ (forall t,
        fst (get_sw_version w) = inr t ->
        exists a b, t = [a; b] /\ 0 <= a <= 255 /\ 0 <= b <= 255).
Proof.
  split.
  - intros v. rewrite get_states_eq, query_result.
    destruct (fst (request 91 1 w)) as [e | bs]; [discriminate | ].
    intros Hv. destruct (states_of_ok bs v Hv) as (b & _ & ->).
    apply byte_val_range.
  - intros t. rewrite get_sw_version_eq, query_result.
    destruct (fst (request 90 2 w)) as [e | bs]; [discriminate | ].
    intros Ht. destruct (version_of_ok bs t Ht) as (b0 & b1 & _ & ->).
    exists (byte_val b0), (byte_val b1).
    repeat split; apply byte_val_range.
Qed.

(** ** One exchange per call *)

Lemma heap_called (l l' : loc) (c' : C) (ev : event) (w : world C) :
  l' <> l -> heap (called l c' ev w) l' = heap w l'.
Proof.
  intros Hne. unfold called, upd. simpl.
  now apply Nat.eqb_neq in Hne as ->.
Qed.

Lemma raise_one_exchange (e : exn) (w : world C) :
  one_exchange w (Some e) w.
Proof.
  repeat split. exists []. rewrite app_nil_r.
  repeat split; try (now left); intros; discriminate.
Qed.

Lemma fd_write_one_exchange (data : list Z) (w : world C) :
  one_exchange w (failure (fst (fd_write data w))) (snd (fd_write data w)).
Proof.
  rewrite fd_write_run. cbn [fst snd]. split; [reflexivity | split].
  - intros l' Hne. now apply heap_called.
  - exists [EvWrite (fd (self w)) data]. split; [reflexivity | ].
    split; [right; left; now exists data | ].
    split; [ | split; intros; discriminate].
    intros data0 rest msg c1 Hev Hw. injection Hev as <- <-.
    rewrite Hw. split; reflexivity.
Qed.

Lemma query_one_exchange {A : Type} (op : Z) (size : nat)
      (k : bytes -> result A) (w : world C) :
  (forall bs, (List.length bs < size)%nat -> exists msg, k bs = inl (OSError msg)) ->
  one_exchange w
    (failure (fst ((data <- request op size ;; lift (k data)) w)))
    (snd ((data <- request op size ;; lift (k data)) w)).
Proof.
  intros Hk. unfold bind, lift.
  destruct (request_cases op size w)
    as [(m & c1 & Hw & Hq) | [(c1 & m & c2 & Hw & Hr & Hq)
                             | (c1 & bs & c2 & Hw & Hr & Hq)]];
    rewrite Hq; cbn [fst snd]; (split; [reflexivity | split]).
  - intros l' Hne. now apply heap_called.
  - exists [EvWrite (fd (self w)) [op]]. split; [reflexivity | ].
    split; [right; left; now exists [op] | ].
    split; [ | split; intros; discriminate].
    intros data0 rest msg c0 Hev Hw0. injection Hev as <- <-.
    rewrite Hw in Hw0. injection Hw0 as <- _. split; reflexivity.
  - intros l' Hne. now rewrite !heap_called.
  - exists [EvWrite (fd (self w)) [op]; EvRead (fd (self w)) size].
    split; [apply log_called2 | ].
    split; [right; right; now exists [op], size | ].
    split; [ | split].
    + intros data0 rest msg c0 Hev Hw0. injection Hev as <- <-.
      rewrite Hw in Hw0. discriminate.
    + intros data0 size0 c0 msg c3 Hev Hw0 Hr0. injection Hev as <- <-.
      rewrite Hw in Hw0. injection Hw0 as <-.
      rewrite Hr in Hr0. injection Hr0 as <- _. reflexivity.
    + intros data0 size0 c0 bs c3 Hev Hw0 Hr0. injection Hev as <- <-.
      rewrite Hw in Hw0. injection Hw0 as <-.
      rewrite Hr in Hr0. discriminate.
  - intros l' Hne. now rewrite !heap_called.
  - exists [EvWrite (fd (self w)) [op]; EvRead (fd (self w)) size].
    split; [apply log_called2 | ].
    split; [right; right; now exists [op], size | ].
    split; [ | split].
    + intros data0 rest msg c0 Hev Hw0. injection Hev as <- <-.
      rewrite Hw in Hw0. discriminate.
    + intros data0 size0 c0 msg c3 Hev Hw0 Hr0. injection Hev as <- <-.
      rewrite Hw in Hw0. injection Hw0 as <-.
      rewrite Hr in Hr0. discriminate.
    + intros data0 size0 c0 bs0 c3 Hev Hw0 Hr0 Hlen. injection Hev as <- <-.
      rewrite Hw in Hw0. injection Hw0 as <-.
      rewrite Hr in Hr0. injection Hr0 as <- _.
      destruct (Hk bs Hlen) as [msg Hmsg]. exists msg. now rewrite Hmsg.
Qed.

Lemma returning_one_exchange {A B : Type} (m : M C A) (f : A -> B) (w : world C) :
  one_exchange w (failure (fst (m w))) (snd (m w)) ->
  one_exchange w (failure (fst ((a <- m ;; ret (f a)) w)))
               (snd ((a <- m ;; ret (f a)) w)).
Proof.
  unfold bind, ret. destruct (m w) as [[e | a] w']; trivial.
Qed.

Lemma set_state_one_exchange (relay : Z) (state : bool) (w : world C) :
  one_exchange w (failure (fst (set_state relay state w)))
               (snd (set_state relay state w)).
Proof.
  destruct (Z_lt_le_dec relay 0) as [Hlo | Hlo];
    [ | destruct (Z_lt_le_dec 7 relay) as [Hhi | Hhi]].
  - rewrite set_state_rejects by lia. apply raise_one_exchange.
  - rewrite set_state_rejects by lia. apply raise_one_exchange.
  - rewrite set_state_run by lia. apply fd_write_one_exchange.
Qed.

Lemma set_states_one_exchange (states : pyval) (w : world C) :
  one_exchange w (failure (fst (set_states states w)))
               (snd (set_states states w)).
Proof.
  destruct states as [m | b | s | ]; try apply raise_one_exchange.
  unfold set_states. destruct ((m <? 0) || (m >? 255)).
  - apply raise_one_exchange.
  - apply (fd_write_one_exchange [92; m]).
Qed.

(** C9: every operation leaves the receiver (its [fd] attribute) and
    every object but its channel as they were; on the channel it makes
    no call, one write, or one write followed by one read, and nothing
    more.  A write the channel refuses ends the call with the channel's
    exception and no read; a read the channel refuses ends it with the
    channel's exception; a read that comes back short ends it with
    [OSError]: in none of these cases is there a second write or read. *)
Theorem one_exchange_per_call (m : method) (w : world C) :
  let l := fd (self w) in
  let r := failure (fst (invoke m w)) in
  let w' := snd (invoke m w) in
  self w' = self w
  /\ (forall l', l' <> l -> heap w' l' = heap w l')
  /\ exists evs,
      log w' = log w ++ evs
      /\ (evs = []
          \/ (exists data, evs = [EvWrite l data])
          \/ (exists data size, evs = [EvWrite l data; EvRead l size]))
      /\ (forall data rest msg c1,
            evs = EvWrite l data :: rest ->
            write (chan w) data = (inl msg, c1) ->
            rest = [] /\ r = Some (ChannelError msg))
      /\ (forall data size c1 msg c2,
            evs = [EvWrite l data; EvRead l size] ->
            write (chan w) data = (inr tt, c1) ->
            read c1 size = (inl msg, c2) ->
            r = Some (ChannelError msg))
      /\ (forall data size c1 bs c2,
            evs = [EvWrite l data; EvRead l size] ->
            write (chan w) data = (inr tt, c1) ->
            read c1 size = (inr bs, c2) ->
            (List.length bs < size)%nat ->
            exists msg, r = Some (OSError msg)).
Proof.
  change (one_exchange w (failure (fst (invoke m w))) (snd (invoke m w))).
  destruct m as [relay state | states | | state | | ]; cbn [invoke];
    apply returning_one_exchange.
  - apply set_state_one_exchange.
  - apply set_states_one_exchange.
  - rewrite get_states_eq. apply query_one_exchange.
    intros bs Hlen. eexists. now apply states_of_short.
  - rewrite set_all_eq. apply fd_write_one_exchange.
  - rewrite get_serial_eq. apply query_one_exchange.
    intros bs Hlen. eexists. now apply serial_of_short.
  - rewrite get_sw_version_eq. apply query_one_exchange.
    intros bs Hlen. eexists. now apply version_of_short.
Qed.

End Properties.

(** * The properties on the recording fake channel *)


(** Relay 3 on: the fake channel records the one byte 104. *)
Lemma set_state_writes_one_byte_witness :
  0 <= 3 <= 7
  /\ log (snd (set_state 3 true (fake_world []))) = [EvWrite 0%nat [104]]
  /\ fst (set_state 3 true (fake_world [])) = inr tt
  /\ written (chan (snd (set_state 3 true (fake_world [])))) = [104].
Proof.
  assert (Hr : 0 <= 3 <= 7) by lia.
  destruct (set_state_writes_one_byte 3 true (fake_world []) Hr)
    as (Hlog & _ & Hok & Hchan).
  split; [exact Hr | split; [ | split]].
  - exact Hlog.
  - exact (Hok _ eq_refl).
  - rewrite Hchan. reflexivity.
Defined.

(** Relay 8 and mask 256 are turned down and the fake channel has
    recorded nothing. *)
Lemma out_of_range_rejected_before_write_witness :
  (exists msg, set_state 8 true (fake_world []) = (inl (ValueError msg), fake_world []))
  /\ (exists msg, set_states (PyInt 256) (fake_world [])
                  = (inl (ValueError msg), fake_world []))
  /\ written (chan (snd (set_state 8 true (fake_world [])))) = [].
Proof.
  destruct (out_of_range_rejected_before_write (fake_world [])) as [Hrelay Hmask].
  split; [ | split].
  - apply (Hrelay 8 true). right. lia.
  - apply (Hmask 256). right. lia.
  - reflexivity.
Defined.

(** Mask 0x0A: the fake channel records the two bytes 92, 10. *)
Lemma set_states_writes_two_bytes_witness :
  0 <= 10 <= 255
  /\ log (snd (set_states (PyInt 10) (fake_world []))) = [EvWrite 0%nat [92; 10]]
  /\ fst (set_states (PyInt 10) (fake_world [])) = inr tt
  /\ written (chan (snd (set_states (PyInt 10) (fake_world [])))) = [92; 10].
Proof.
  assert (Hm : 0 <= 10 <= 255) by lia.
  destruct (set_states_writes_two_bytes 10 (fake_world []) Hm)
    as (Hlog & _ & Hok & Hchan).
  split; [exact Hm | split; [ | split]].
  - exact Hlog.
  - exact (Hok _ eq_refl).
  - rewrite Hchan. reflexivity.
Defined.




(** All relays on, all relays off: the fake channel records 100, and
    110. *)
Lemma set_all_writes_one_byte_witness :
  (log (snd (set_all true (fake_world []))) = [EvWrite 0%nat [100]]
   /\ fst (set_all true (fake_world [])) = inr tt
   /\ written (chan (snd (set_all true (fake_world [])))) = [100])
  /\ (log (snd (set_all false (fake_world []))) = [EvWrite 0%nat [110]]
      /\ fst (set_all false (fake_world [])) = inr tt
      /\ written (chan (snd (set_all false (fake_world [])))) = [110]).
Proof.
  destruct (set_all_writes_one_byte true (fake_world []))
    as (Hon & _ & Hon_ok & Hon_chan).
  destruct (set_all_writes_one_byte false (fake_world []))
    as (Hoff & _ & Hoff_ok & Hoff_chan).
  split; (split; [ | split]).
  - exact Hon.
  - exact (Hon_ok _ eq_refl).
  - rewrite Hon_chan. reflexivity.
  - exact Hoff.
  - exact (Hoff_ok _ eq_refl).
  - rewrite Hoff_chan. reflexivity.
Defined.

(** Relay 7 off goes out as 118, and 118 - 111 is 7 again. *)
Lemma relay_index_round_trip_witness :
  exists base opcode,
    dict_get CMDS "FIRST_OFF" = Some base
    /\ base = 111
    /\ log (snd (set_state 7 false (fake_world []))) = [EvWrite 0%nat [opcode]]
    /\ opcode = base + 7
    /\ opcode - base = 7.
Proof.
  assert (Hr : 0 <= 7 <= 7) by lia.
  exact (relay_index_round_trip 7 false (fake_world []) Hr).
Defined.

(** A channel whose write raises ends [get_states] after the write: the
    read is never made. *)
Lemma one_exchange_per_call_witness :
  failure (fst (invoke GetStates (broken_world "port closed")))
  = Some (ChannelError "port closed")
  /\ log (snd (invoke GetStates (broken_world "port closed")))
     = [EvWrite 0%nat [91]].
Proof.
  destruct (one_exchange_per_call GetStates (broken_world "port closed"))
    as (_ & _ & evs & Hlog & _ & Hwrite & _ & _).
  split; [ | reflexivity].
  change (log (snd (invoke GetStates (broken_world "port closed"))))
    with ([] ++ [EvWrite 0%nat [91]]) in Hlog.
  apply app_inv_head in Hlog.
  exact (proj2 (Hwrite [91] [] "port closed" _ (eq_sym Hlog) eq_refl)).
Defined.

(** The byte 0xFF comes back as 255, within range, from both queries. *)
Lemma returned_bytes_in_range_witness :
  (fst (get_states (fake_world [inr [xff]])) = inr 255
   /\ 0 <= 255 <= 255)
  /\ (fst (get_sw_version (fake_world [inr [x05; xff]])) = inr [5; 255]
      /\ exists a b, [5; 255] = [a; b] /\ 0 <= a <= 255 /\ 0 <= b <= 255).
Proof.
  destruct (returned_bytes_in_range (fake_world [inr [xff]])) as [Hstates _].
  destruct (returned_bytes_in_range (fake_world [inr [x05; xff]])) as [_ Hversion].
  split; split.
  - reflexivity.
  - exact (Hstates 255 eq_refl).
  - reflexivity.
  - exact (Hversion [5; 255] eq_refl).
Defined.

(** * Further properties of the methods *)

Section Wire.
Context {C : Type} `{ByteChannel C}.

Lemma returning_fst {A B : Type} (m : M C A) (f : A -> B) (w : world C) :
  fst ((a <- m ;; ret (f a)) w)
    = match fst (m w) with
      | inl e => inl e
      | inr a => inr (f a)
      end.
Proof. unfold bind, ret. destruct (m w) as [[e | a] w']; reflexivity. Qed.

Lemma returning_snd {A B : Type} (m : M C A) (f : A -> B) (w : world C) :
  snd ((a <- m ;; ret (f a)) w) = snd (m w).
Proof. unfold bind, ret. destruct (m w) as [[e | a] w']; reflexivity. Qed.

Lemma guard_false (z hi : Z) :
  (z <? 0) || (z >? hi) = false -> 0 <= z <= hi.
Proof. lia. Qed.

Lemma guard_true (z hi : Z) :
  (z <? 0) || (z >? hi) = true -> z < 0 \/ hi < z.
Proof. lia. Qed.

(** The calls a method makes are the write of [wire] and, for a query
    whose write went through, the read of [reply_size]. *)
Lemma invoke_log (m : method) (w : world C) :
  log (snd (invoke m w))
    = log w ++ match wire m with
               | None => []
               | Some data =>
                   EvWrite (fd (self w)) data
                   :: match reply_size m, fst (write (chan w) data) with
                      | Some size, inr _ => [EvRead (fd (self w)) size]
                      | _, _ => []
                      end
               end.
Proof.
  destruct m as [relay state | states | | state | | ]; cbn [invoke];
    rewrite returning_snd; cbn [wire reply_size].
  - destruct ((relay <? 0) || (relay >? 7)) eqn:G.
    + rewrite set_state_rejects by (now apply guard_true).
      simpl. now rewrite app_nil_r.
    + rewrite set_state_run by (now apply guard_false).
      now rewrite fd_write_run.
  - destruct states as [n | b | s | ]; try (simpl; now rewrite app_nil_r).
    destruct ((n <? 0) || (n >? 255)) eqn:G.
    + unfold set_states. rewrite G. simpl. now rewrite app_nil_r.
    + rewrite set_states_eq by (now apply guard_false).
      now rewrite fd_write_run.
  - rewrite get_states_eq, after_request_log, request_log.
    now destruct (fst (write (chan w) [91])).
  - now rewrite set_all_eq, fd_write_run.
  - rewrite get_serial_eq, after_request_log, request_log.
    now destruct (fst (write (chan w) [56])).
  - rewrite get_sw_version_eq, after_request_log, request_log.
    now destruct (fst (write (chan w) [90])).
Qed.

(** ** The encoding can be read back *)

Lemma some_eq {A : Type} (x y : A) : Some x = Some y -> x = y.
Proof. congruence. Qed.

Lemma wire_inj (m1 m2 : method) (data : list Z) :
  wire m1 = Some data -> wire m2 = Some data -> m1 = m2.
Proof.
  destruct m1 as [r1 s1 | [n1 | b1 | t1 | ] | | s1 | | ];
    destruct m2 as [r2 s2 | [n2 | b2 | t2 | ] | | s2 | | ];
    cbn [wire]; try discriminate; try reflexivity;
    repeat match goal with
           | |- context [(?z <? 0) || (?z >? ?hi)] =>
               let G := fresh "G" in
               destruct ((z <? 0) || (z >? hi)) eqn:G;
               [discriminate | apply guard_false in G]
           end;
    try discriminate;
    try (destruct s1); try (destruct s2);
    intros H1 H2; rewrite <- H2 in H1; clear H2;
    try match type of H1 with
        | Some [?a] = Some [?b] => assert (a = b) by congruence
        | Some [92; ?a] = Some [92; ?b] => assert (a = b) by congruence
        | _ => discriminate
        end;
    try match goal with
        | |- SetState ?a _ = SetState ?b _ => replace a with b by lia
        | |- SetStates (PyInt ?a) = SetStates (PyInt ?b) => replace a with b by lia
        end;
    try reflexivity; exfalso; lia.
Qed.

Lemma wire_bytes (m : method) (data : list Z) :
  wire m = Some data -> Forall (fun z => 0 <= z <= 255) data.
Proof.
  destruct m as [r s | [n | b | t | ] | | s | | ]; cbn [wire]; try discriminate;
    repeat match goal with
           | |- context [(?z <? 0) || (?z >? ?hi)] =>
               let G := fresh "G" in
               destruct ((z <? 0) || (z >? hi)) eqn:G;
               [discriminate | apply guard_false in G]
           end;
    try (destruct s); intros Hd; apply some_eq in Hd; subst data;
    repeat (apply Forall_cons; [lia | ]); apply Forall_nil.
Qed.

Lemma new_events (m : method) (w : world C) (evs : list event) :
  log (snd (invoke m w)) = log w ++ evs ->
  evs = match wire m with
        | None => []
        | Some data =>
            EvWrite (fd (self w)) data
            :: match reply_size m, fst (write (chan w) data) with
               | Some size, inr _ => [EvRead (fd (self w)) size]
               | _, _ => []
               end
        end.
Proof.
  rewrite invoke_log. intros Hlog. apply app_inv_head in Hlog. now symmetry.
Qed.

(** X1: for arguments of the documented types (the relay an [int],
    the state [True] or [False], the mask an [int], a [bool], a string
    or [None]), two calls that hand the channel the same bytes are the
    same method called with the same arguments: the opcodes of the
    commands and of the sixteen relay commands never coincide. *)
Theorem written_bytes_identify_call
        (m1 m2 : method) (w1 w2 : world C) (data : list Z)
        (rest1 rest2 : list event) :
  log (snd (invoke m1 w1)) = log w1 ++ EvWrite (fd (self w1)) data :: rest1 ->
  log (snd (invoke m2 w2)) = log w2 ++ EvWrite (fd (self w2)) data :: rest2 ->
  m1 = m2.
Proof.
  intros H1 H2. apply new_events in H1. apply new_events in H2.
  destruct (wire m1) as [d1 | ] eqn:W1; [ | discriminate].
  destruct (wire m2) as [d2 | ] eqn:W2; [ | discriminate].
  injection H1 as -> _. injection H2 as -> _.
  exact (wire_inj m1 m2 d2 W1 W2).
Qed.

(** X2: for arguments of the documented types (the relay any [int],
    in range or not, the state [True] or [False], the mask any [int], a
    [bool], a string or [None]), every value a call hands to [write]
    lies in [0,255]: for these the guards keep anything else from the
    channel. *)
Theorem only_bytes_are_written
        (m : method) (w : world C) (evs : list event) (l : loc) (data : list Z) :
  log (snd (invoke m w)) = log w ++ evs ->
  In (EvWrite l data) evs ->
  Forall (fun z => 0 <= z <= 255) data.
Proof.
  intros Hlog Hin. apply new_events in Hlog. subst evs.
  destruct (wire m) as [d | ] eqn:W; [ | destruct Hin].
  destruct Hin as [Heq | Hin].
  - injection Heq as _ <-. exact (wire_bytes m d W).
  - destruct (reply_size m), (fst (write (chan w) d)); simpl in Hin;
      try contradiction; destruct Hin as [Heq | []]; discriminate.
Qed.

(** ** The exceptions of each method *)

Lemma states_of_wrong (bs : bytes) :
  List.length bs <> 1%nat -> states_of bs = inl (short_read "get_states").
Proof.
  intros Hlen. unfold states_of.
  now apply Nat.eqb_neq in Hlen as ->.
Qed.

Lemma serial_of_wrong (bs : bytes) :
  List.length bs <> 8%nat -> serial_of bs = inl (short_read "get_serial").
Proof.
  intros Hlen. unfold serial_of.
  now apply Nat.eqb_neq in Hlen as ->.
Qed.

Lemma version_of_wrong (bs : bytes) :
  List.length bs <> 2%nat -> version_of bs = inl (short_read "get_sw_version").
Proof.
  intros Hlen. unfold version_of.
  now apply Nat.eqb_neq in Hlen as ->.
Qed.

Lemma states_of_error (bs : bytes) (e : exn) :
  states_of bs = inl e -> e = short_read "get_states".
Proof.
  destruct bs as [| b [| b' rest]]; cbn; congruence.
Qed.

Lemma version_of_error (bs : bytes) (e : exn) :
  version_of bs = inl e -> e = short_read "get_sw_version".
Proof.
  destruct bs as [| b0 [| b1 [| b2 rest]]]; cbn; congruence.
Qed.

Lemma serial_of_error (bs : bytes) (e : exn) :
  serial_of bs = inl e ->
  e = short_read "get_serial"
  \/ exists i, e = UnicodeDecodeError "ascii" bs i (S i) "ordinal not in range(128)".
Proof.
  unfold serial_of. destruct (negb (Nat.eqb (List.length bs) 8)).
  - left. congruence.
  - unfold decode_ascii. destruct (first_non_ascii 0 bs) as [i | ].
    + right. exists i. congruence.
    + discriminate.
Qed.

Lemma request_error (op : Z) (size : nat) (w : world C) (e : exn) :
  fst (request op size w) = inl e -> exists msg, e = ChannelError msg.
Proof.
  destruct (request_cases op size w)
    as [(m & c1 & Hw & Hq) | [(c1 & m & c2 & Hw & Hr & Hq)
                             | (c1 & bs & c2 & Hw & Hr & Hq)]];
    rewrite Hq; cbn [fst]; intros He; try discriminate;
    exists m; congruence.
Qed.

Lemma fd_write_error (data : list Z) (w : world C) (e : exn) :
  fst (fd_write data w) = inl e -> exists msg, e = ChannelError msg.
Proof.
  rewrite fd_write_run. cbn [fst].
  destruct (fst (write (chan w) data)) as [msg | u]; [ | discriminate].
  intros He. exists msg. congruence.
Qed.


(** X4: the length tests are for equality: once the write has gone
    through and the read has come back with [bs], a query ends with the
    short-read [OSError] exactly when [bs] does not have the length
    asked for, be it shorter or longer. *)
Theorem wrong_length_reply_rejected
        (m : method) (w : world C) (data : list Z) (size : nat)
        (c1 c2 : C) (bs : bytes) :
  wire m = Some data ->
  reply_size m = Some size ->
  write (chan w) data = (inr tt, c1) ->
  read c1 size = (inr bs, c2) ->
  ((exists msg, fst (invoke m w) = inl (OSError msg))
   <-> List.length bs <> size).
Proof.
  intros Hwire Hsize Hw Hr.
  destruct m as [relay state | states | | state | | ]; try discriminate;
    cbn in Hwire, Hsize; apply some_eq in Hwire; apply some_eq in Hsize;
    subst data size; cbn [invoke]; rewrite returning_fst.
  - rewrite get_states_eq, query_result,
      (request_result 91 1 w c1 c2 (inr bs) Hw Hr).
    split.
    + intros [msg Hres] Hlen.
      destruct bs as [| b [| b' rest]]; try discriminate.
    + intros Hlen. rewrite (states_of_wrong bs Hlen). eexists. reflexivity.
  - rewrite get_serial_eq, query_result,
      (request_result 56 8 w c1 c2 (inr bs) Hw Hr).
    split.
    + intros [msg Hres] Hlen. rewrite (serial_of_full bs Hlen) in Hres.
      unfold decode_ascii in Hres.
      destruct (first_non_ascii 0 bs); discriminate.
    + intros Hlen. rewrite (serial_of_wrong bs Hlen). eexists. reflexivity.
  - rewrite get_sw_version_eq, query_result,
      (request_result 90 2 w c1 c2 (inr bs) Hw Hr).
    split.
    + intros [msg Hres] Hlen.
      destruct bs as [| b0 [| b1 [| b2 rest]]]; try discriminate.
    + intros Hlen. rewrite (version_of_wrong bs Hlen). eexists. reflexivity.
Qed.

(** ** The serial number *)

Lemma first_non_ascii_all (i : nat) (bs : bytes) :
  first_non_ascii i bs = None -> forall b, In b bs -> byte_val b < 128.
Proof.
  revert i. induction bs as [| b rest IH]; intros i Hnone b0 Hin.
  - destruct Hin.
  - simpl in Hnone. unfold is_ascii in Hnone.
    destruct (byte_val b <? 128) eqn:Hb; [ | discriminate].
    destruct Hin as [<- | Hin]; [lia | exact (IH (S i) Hnone b0 Hin)].
Qed.

Lemma text_of_chars (bs : bytes) (a : ascii) :
  In a (list_ascii_of_string (text_of bs)) ->
  exists b, In b bs /\ Z.of_N (N_of_ascii a) = byte_val b.
Proof.
  unfold text_of. rewrite list_ascii_of_string_of_list_ascii.
  intros Hin. apply in_map_iff in Hin as (b & <- & Hb).
  exists b. split; [exact Hb | ].
  unfold byte_val. rewrite ascii_of_byte_via_N, N_ascii_embedding; [reflexivity | ].
  pose proof (Byte.to_N_bounded b). lia.
Qed.

(** X5: whatever the channel does, a text [get_serial] returns has
    exactly 8 characters and every one of them is ASCII (code below
    128). *)
Theorem serial_is_eight_ascii_characters (w : world C) (serial : string) :
  fst (get_serial w) = inr serial ->
  String.length serial = 8%nat
  /\ forall a, In a (list_ascii_of_string serial) -> (N_of_ascii a < 128)%N.
Proof.
  rewrite get_serial_eq, query_result.
  destruct (fst (request 56 8 w)) as [e | bs]; [discriminate | ].
  unfold serial_of. destruct (Nat.eqb (List.length bs) 8) eqn:Hlen;
    [ | discriminate].
  apply Nat.eqb_eq in Hlen. cbn [negb]. unfold decode_ascii.
  destruct (first_non_ascii 0 bs) as [i | ] eqn:Hf; [discriminate | ].
  intros Hs. apply (f_equal (fun r => match r with inr t => t | inl _ => "" end)) in Hs.
  subst serial. split.
  - now rewrite text_of_length.
  - intros a Hin. destruct (text_of_chars bs a Hin) as (b & Hb & Hcode).
    pose proof (first_non_ascii_all 0 bs Hf b Hb). lia.
Qed.

(** ** The argument of [set_states] *)

(** X6: [set_states] reaches the channel exactly when its argument is
    an [int] in [0,255]; any other value, a [bool], a string or [None]
    included, ends in [ValueError] with nothing written. *)
Theorem set_states_accepts_only_small_ints (states : pyval) (w : world C) :
  ((exists m, states = PyInt m /\ 0 <= m <= 255)
   <-> log (snd (set_states states w)) <> log w)
  /\ ((forall m, states = PyInt m -> m < 0 \/ 255 < m) ->
      exists msg, set_states states w = (inl (ValueError msg), w)).
Proof.
  assert (Hsame : forall l : list event, l <> l -> False) by (intros l Hl; now apply Hl).
  assert (Hgrow : forall (l : list event) ev, l ++ [ev] <> l).
  { intros l ev Heq. apply (f_equal (@List.length event)) in Heq.
    rewrite length_app in Heq. simpl in Heq. lia. }
  split; [split | ].
  - intros (m & -> & Hm). rewrite set_states_eq by exact Hm.
    rewrite fd_write_run. apply Hgrow.
  - destruct states as [n | b | s | ]; cbn; intros Hlog;
      try (exfalso; now apply (Hsame (log w))).
    destruct ((n <? 0) || (n >? 255)) eqn:G.
    + exfalso. now apply (Hsame (log w)).
    + exists n. split; [reflexivity | now apply guard_false].
  - intros Hbad. destruct states as [n | b | s | ];
      try (eexists; reflexivity).
    unfold set_states.
    replace ((n <? 0) || (n >? 255)) with true
      by (pose proof (Hbad n eq_refl); lia).
    eexists. reflexivity.
Qed.

(** ** The codec keeps nothing between calls *)

Lemma chan_called2 (c1 c2 : C) (e1 e2 : event) (w : world C) :
  chan (called (fd (self w)) c2 e2 (called (fd (self w)) c1 e1 w)) = c2.
Proof. now apply chan_called. Qed.

Lemma request_frame (op : Z) (size : nat) (w1 w2 : world C) :
  chan w1 = chan w2 ->
  fst (request op size w1) = fst (request op size w2)
  /\ chan (snd (request op size w1)) = chan (snd (request op size w2)).
Proof.
  intros Hc.
  destruct (request_cases op size w1)
    as [(m & c1 & Hw & Hq) | [(c1 & m & c2 & Hw & Hr & Hq)
                             | (c1 & bs & c2 & Hw & Hr & Hq)]];
    rewrite Hq; rewrite Hc in Hw.
  - rewrite (request_refused op size w2 m c1 Hw). cbn [fst snd].
    now rewrite !chan_called.
  - rewrite (request_sent op size w2 c1 c2 (inl m) Hw Hr). cbn [fst snd].
    now rewrite !chan_called2.
  - rewrite (request_sent op size w2 c1 c2 (inr bs) Hw Hr). cbn [fst snd].
    now rewrite !chan_called2.
Qed.

Lemma fd_write_frame (data : list Z) (w1 w2 : world C) :
  chan w1 = chan w2 ->
  fst (fd_write data w1) = fst (fd_write data w2)
  /\ chan (snd (fd_write data w1)) = chan (snd (fd_write data w2)).
Proof.
  intros Hc. rewrite !fd_write_run. cbn [fst snd].
  rewrite !chan_called by reflexivity. now rewrite Hc.
Qed.

Lemma query_frame {A : Type} (op : Z) (size : nat) (k : bytes -> result A)
      (w1 w2 : world C) :
  chan w1 = chan w2 ->
  fst ((data <- request op size ;; lift (k data)) w1)
    = fst ((data <- request op size ;; lift (k data)) w2)
  /\ chan (snd ((data <- request op size ;; lift (k data)) w1))
     = chan (snd ((data <- request op size ;; lift (k data)) w2)).
Proof.
  intros Hc. destruct (request_frame op size w1 w2 Hc) as [Hf Hs].
  rewrite !query_result, Hf. split; [reflexivity | ].
  unfold bind, lift.
  destruct (request op size w1) as [[e1 | b1] w1'],
           (request op size w2) as [[e2 | b2] w2']; exact Hs.
Qed.

(** X7: a call sees nothing but its channel: in two worlds whose
    channel objects are in the same state, whatever else differs (the
    calls made so far, the other objects, the address of the channel),
    the same call ends the same way and leaves the channel in the same
    state. *)
Theorem outcome_depends_on_channel_only (m : method) (w1 w2 : world C) :
  chan w1 = chan w2 ->
  fst (invoke m w1) = fst (invoke m w2)
  /\ chan (snd (invoke m w1)) = chan (snd (invoke m w2)).
Proof.
  intros Hc.
  assert (Hret : forall (A : Type) (p : M C A) (f : A -> retval),
             fst (p w1) = fst (p w2)
             /\ chan (snd (p w1)) = chan (snd (p w2)) ->
             fst ((a <- p ;; ret (f a)) w1) = fst ((a <- p ;; ret (f a)) w2)
             /\ chan (snd ((a <- p ;; ret (f a)) w1))
                = chan (snd ((a <- p ;; ret (f a)) w2))).
  { intros A p f [Hf Hs]. rewrite !returning_fst, !returning_snd, Hf. now split. }
  destruct m as [relay state | states | | state | | ]; cbn [invoke];
    apply Hret.
  - destruct ((relay <? 0) || (relay >? 7)) eqn:G.
    + rewrite !set_state_rejects by (now apply guard_true). now split.
    + rewrite !set_state_run by (now apply guard_false).
      now apply fd_write_frame.
  - destruct states as [n | b | s | ]; try (now split).
    destruct ((n <? 0) || (n >? 255)) eqn:G.
    + unfold set_states. rewrite G. now split.
    + rewrite !set_states_eq by (now apply guard_false).
      now apply fd_write_frame.
  - rewrite !get_states_eq. now apply query_frame.
  - rewrite !set_all_eq. now apply fd_write_frame.
  - rewrite !get_serial_eq. now apply query_frame.
  - rewrite !get_sw_version_eq. now apply query_frame.
Qed.

End Wire.

(** * The command line tool *)

Section MainProperties.
Context {C : Type} `{SerialPort C}.

Lemma call_run {A : Type} (m : M C A) (p : process C) :
  call m p
    = (fst (m (codec p)),
       {| codec := snd (m (codec p)); stdout := stdout p; closes := closes p |}).
Proof. unfold call. now destruct (m (codec p)). Qed.

Lemma sends_nothing (p : process C) : sends (io_ret tt) p [].
Proof.
  exists (codec p). destruct p as [w out cl]. cbn.
  now rewrite app_nil_r.
Qed.

Lemma sends_bind (m k : IO C unit) (p : process C) (evs1 evs2 : list event) :
  sends m p evs1 ->
  (forall p1,
      stdout p1 = stdout p -> closes p1 = closes p ->
      self (codec p1) = self (codec p) ->
      log (codec p1) = log (codec p) ++ evs1 ->
      sends k p1 evs2) ->
  sends (io_bind m (fun _ => k)) p (evs1 ++ evs2).
Proof.
  intros (w1 & Hm & Hself1 & Hlog1) Hk.
  destruct (Hk {| codec := w1; stdout := stdout p; closes := closes p |}
               eq_refl eq_refl Hself1 Hlog1) as (w2 & Hk2 & Hself2 & Hlog2).
  exists w2. unfold io_bind. rewrite Hm, Hk2. cbn in *.
  repeat split; [congruence | ].
  rewrite Hlog2, Hlog1. now rewrite app_assoc.
Qed.

Lemma sends_write (data : list Z) (p : process C) :
  accepting C ->
  sends (call (fd_write data)) p [EvWrite (fd (self (codec p))) data].
Proof.
  intros Hacc. eexists. rewrite call_run, fd_write_run. cbn [fst snd].
  rewrite (Hacc (chan (codec p)) data). repeat split.
Qed.

Lemma sends_set_state (relay : Z) (state : bool) (p : process C) :
  accepting C ->
  0 <= relay <= 7 ->
  sends (call (set_state relay state)) p
        [EvWrite (fd (self (codec p)))
                 [if state then 101 + relay else 111 + relay]].
Proof.
  intros Hacc Hr.
  destruct (sends_write [if state then 101 + relay else 111 + relay] p Hacc)
    as (w' & Hrun & Hrest).
  exists w'. split; [ | exact Hrest].
  rewrite <- Hrun, !call_run. now rewrite set_state_run.
Qed.

Lemma sends_set_all (state : bool) (p : process C) :
  accepting C ->
  sends (call (set_all state)) p
        [EvWrite (fd (self (codec p))) [if state then 100 else 110]].
Proof.
  intros Hacc.
  destruct (sends_write [if state then 100 else 110] p Hacc)
    as (w' & Hrun & Hrest).
  exists w'. split; [ | exact Hrest].
  rewrite <- Hrun, !call_run. now rewrite set_all_eq.
Qed.

(** The loop over the chosen relays sends one opcode for each, in the
    order given. *)
Lemma sends_relay_loop (state : bool) (chosen : list Z) (p : process C) :
  accepting C ->
  Forall (fun relay => 0 <= relay <= 7) chosen ->
  sends (for_each chosen (fun relay => call (set_state relay state))) p
        (map (fun relay => EvWrite (fd (self (codec p)))
                                   [if state then 101 + relay else 111 + relay])
             chosen).
Proof.
  intros Hacc Hall. revert p.
  induction Hall as [| relay rest Hr Hrest IH]; intros p.
  - apply sends_nothing.
  - cbn [for_each map].
    apply (sends_bind _ _ p [_] _ (sends_set_state relay state p Hacc Hr)).
    intros p1 _ _ Hself _. rewrite <- Hself. apply IH.
Qed.

Lemma sends_then (m : IO C unit) (p : process C) (evs : list event) :
  sends m p evs ->
  exists w',
    self w' = self (codec p)
    /\ log w' = log (codec p) ++ evs
    /\ forall (B : Type) (k : IO C B),
        io_bind m (fun _ => k) p
          = k {| codec := w'; stdout := stdout p; closes := closes p |}.
Proof.
  intros (w' & Hm & Hself & Hlog). exists w'. repeat split; trivial.
  intros B k. unfold io_bind. now rewrite Hm.
Qed.

Lemma sends_all_relays (args : Args.t) (p : process C) :
  accepting C ->
  sends (handle_all_relays args) p
        match Args.all_relays args with
        | Some v =>
            if String.eqb v "on" then [EvWrite (fd (self (codec p))) [100]]
            else if String.eqb v "off" then [EvWrite (fd (self (codec p))) [110]]
            else []
        | None => []
        end.
Proof.
  intros Hacc. unfold handle_all_relays.
  destruct (Args.all_relays args) as [v | ]; [ | apply sends_nothing].
  destruct (String.eqb v "on"); [apply (sends_set_all true p Hacc) | ].
  destruct (String.eqb v "off"); [apply (sends_set_all false p Hacc) | ].
  apply sends_nothing.
Qed.

Lemma sends_relay_on (args : Args.t) (p : process C) :
  accepting C ->
  Forall (fun relay => 0 <= relay <= 7) (chosen_relays (Args.relay_on args)) ->
  sends (handle_relay_on args) p
        (map (fun relay => EvWrite (fd (self (codec p))) [101 + relay])
             (chosen_relays (Args.relay_on args))).
Proof.
  intros Hacc Hall. unfold handle_relay_on.
  destruct (Args.relay_on args) as [[| relay rest] | ];
    try apply sends_nothing.
  apply (sends_relay_loop true (relay :: rest) p Hacc Hall).
Qed.

Lemma sends_relay_off (args : Args.t) (p : process C) :
  accepting C ->
  Forall (fun relay => 0 <= relay <= 7) (chosen_relays (Args.relay_off args)) ->
  sends (handle_relay_off args) p
        (map (fun relay => EvWrite (fd (self (codec p))) [111 + relay])
             (chosen_relays (Args.relay_off args))).
Proof.
  intros Hacc Hall. unfold handle_relay_off.
  destruct (Args.relay_off args) as [[| relay rest] | ];
    try apply sends_nothing.
  apply (sends_relay_loop false (relay :: rest) p Hacc Hall).
Qed.

(** The world [main] starts its commands in: [r = usbrly(s)]. *)
Lemma main_starts (args : Args.t) (s : loc) (p : process C) :
  main args s p
    = (handle_all_relays args ;;
       handle_relay_on args ;;
       handle_relay_off args ;;
       handle_relays args ;;
       handle_get_serial args ;;
       handle_get_version args ;;
       port_close s)%io
        {| codec := {| self := {| fd := s |}; heap := heap (codec p);
                       log := log (codec p) |};
           stdout := stdout p; closes := closes p |}.
Proof. reflexivity. Qed.

Lemma port_close_run (s : loc) (p : process C) :
  log (codec (snd (port_close s p))) = log (codec p)
  /\ stdout (snd (port_close s p)) = stdout p
  /\ closes (snd (port_close s p)) = closes p ++ [s]
  /\ ((exists a, fst (port_close s p) = inr a)
      \/ exists msg, fst (port_close s p) = inl (ChannelError msg)).
Proof.
  unfold port_close.
  destruct (close (heap (codec p) s)) as [[msg | u] c']; cbn;
    repeat split; [right | left]; eexists; reflexivity.
Qed.

(** X8: with the control options alone, relay numbers as the argument
    parser admits them (0 to 7) and a channel that takes every write,
    [main] sends the command for -a first, then one command for each -n
    in the order given, then one for each -f in the order given, and
    nothing else; it prints nothing and closes the port. *)
Theorem control_options_in_order (args : Args.t) (s : loc) (p : process C) :
  accepting C ->
  Forall (fun relay => 0 <= relay <= 7)
         (chosen_relays (Args.relay_on args) ++ chosen_relays (Args.relay_off args)) ->
  Args.relays args = false ->
  Args.get_serial args = false ->
  Args.get_version args = false ->
  log (codec (snd (main args s p))) = log (codec p) ++ control_writes args s
  /\ stdout (snd (main args s p)) = stdout p
  /\ closes (snd (main args s p)) = closes p ++ [s].
Proof.
  intros Hacc Hall Hg Hs Hv. apply Forall_app in Hall as [Hon Hoff].
  rewrite main_starts.
  set (p0 := {| codec := _ |}).
  destruct (sends_then _ p0 _ (sends_all_relays args p0 Hacc))
    as (w1 & Hself1 & Hlog1 & ->).
  set (p1 := {| codec := w1 |}).
  destruct (sends_then _ p1 _ (sends_relay_on args p1 Hacc Hon))
    as (w2 & Hself2 & Hlog2 & ->).
  set (p2 := {| codec := w2 |}).
  destruct (sends_then _ p2 _ (sends_relay_off args p2 Hacc Hoff))
    as (w3 & Hself3 & Hlog3 & ->).
  unfold handle_relays, handle_get_serial, handle_get_version.
  rewrite Hg, Hs, Hv. cbv [io_bind io_ret].
  destruct (port_close_run s {| codec := w3; stdout := stdout p2; closes := closes p2 |})
    as (Hlog & Hout & Hcl & _).
  rewrite Hlog, Hout, Hcl. subst p0 p1 p2. cbn [codec stdout closes] in *.
  repeat split.
  rewrite Hlog3, Hlog2, Hlog1, Hself2, Hself1. unfold control_writes.
  cbn [self fd log]. now rewrite <- !app_assoc.
Qed.

(** ** The port is closed last, and only after success *)

Lemma open_ret {A : Type} (a : A) : leaves_ports_open (io_ret (C := C) a).
Proof. intros p. reflexivity. Qed.

Lemma open_call {A : Type} (m : M C A) : leaves_ports_open (call m).
Proof. intros p. now rewrite call_run. Qed.

Lemma open_print (line : string) : leaves_ports_open (print (C := C) line).
Proof. intros p. reflexivity. Qed.

Lemma open_bind {A B : Type} (m : IO C A) (k : A -> IO C B) :
  leaves_ports_open m ->
  (forall a, leaves_ports_open (k a)) ->
  leaves_ports_open (io_bind m k).
Proof.
  intros Hm Hk p. unfold io_bind. specialize (Hm p).
  destruct (m p) as [[e | a] p1]; cbn [snd] in *; [exact Hm | ].
  now rewrite Hk.
Qed.

Lemma open_for_each {A : Type} (xs : list A) (body : A -> IO C unit) :
  (forall x, leaves_ports_open (body x)) ->
  leaves_ports_open (for_each xs body).
Proof.
  intros Hbody. induction xs as [| x rest IH]; cbn [for_each].
  - apply open_ret.
  - apply open_bind; [apply Hbody | intros _; exact IH].
Qed.

Lemma open_all_relays (args : Args.t) : leaves_ports_open (handle_all_relays args).
Proof.
  unfold handle_all_relays. destruct (Args.all_relays args) as [v | ];
    [ | apply open_ret].
  destruct (String.eqb v "on"); [apply open_call | ].
  destruct (String.eqb v "off"); [apply open_call | apply open_ret].
Qed.

Lemma open_relay_on (args : Args.t) : leaves_ports_open (handle_relay_on args).
Proof.
  unfold handle_relay_on. destruct (Args.relay_on args) as [[| relay rest] | ];
    try apply open_ret.
  apply open_for_each. intros x. apply open_call.
Qed.

Lemma open_relay_off (args : Args.t) : leaves_ports_open (handle_relay_off args).
Proof.
  unfold handle_relay_off. destruct (Args.relay_off args) as [[| relay rest] | ];
    try apply open_ret.
  apply open_for_each. intros x. apply open_call.
Qed.

Lemma open_relays (args : Args.t) : leaves_ports_open (handle_relays args).
Proof.
  unfold handle_relays. destruct (Args.relays args); [ | apply open_ret].
  apply open_bind; [apply open_call | intros states].
  apply open_bind; [apply open_print | intros _].
  apply open_for_each. intros i. apply open_print.
Qed.

Lemma open_get_serial (args : Args.t) : leaves_ports_open (handle_get_serial args).
Proof.
  unfold handle_get_serial. destruct (Args.get_serial args); [ | apply open_ret].
  apply open_bind; [apply open_call | intros serial; apply open_print].
Qed.

Lemma open_get_version (args : Args.t) : leaves_ports_open (handle_get_version args).
Proof.
  unfold handle_get_version. destruct (Args.get_version args); [ | apply open_ret].
  apply open_bind; [apply open_call | intros version].
  apply open_bind; [apply open_call | intros v0].
  apply open_bind; [apply open_call | intros v1; apply open_print].
Qed.

Lemma closes_last_bind {A B : Type} (s : loc) (m : IO C A) (k : A -> IO C B) :
  leaves_ports_open m ->
  (forall a p1, closes_last s (k a) p1) ->
  forall p, closes_last s (io_bind m k) p.
Proof.
  intros Hm Hk p. unfold closes_last, io_bind. specialize (Hm p).
  destruct (m p) as [[e | a] p1]; cbn [fst snd] in *.
  - left. split; [exact Hm | now exists e].
  - rewrite <- Hm. apply Hk.
Qed.

Lemma closes_last_close (s : loc) (p : process C) :
  closes_last s (port_close s) p.
Proof.
  right. destruct (port_close_run s p) as (_ & _ & Hcl & Hres). now split.
Qed.

Lemma main_commands (args : Args.t) (s : loc) (p : process C) :
  main args s p = io_bind (commands args s) (fun _ => port_close s) p.
Proof.
  unfold main, commands, io_bind.
  destruct (call (__init__ s) p) as [[e | u] p0]; trivial.
  destruct (handle_all_relays args p0) as [[e | u0] p1]; trivial.
  destruct (handle_relay_on args p1) as [[e | u1] p2]; trivial.
  destruct (handle_relay_off args p2) as [[e | u2] p3]; trivial.
  destruct (handle_relays args p3) as [[e | u3] p4]; trivial.
  destruct (handle_get_serial args p4) as [[e | u4] p5]; trivial.
Qed.

Lemma open_commands (args : Args.t) (s : loc) :
  leaves_ports_open (commands (C := C) args s).
Proof.
  unfold commands.
  apply open_bind; [apply open_call | intros _].
  apply open_bind; [apply open_all_relays | intros _].
  apply open_bind; [apply open_relay_on | intros _].
  apply open_bind; [apply open_relay_off | intros _].
  apply open_bind; [apply open_relays | intros _].
  apply open_bind; [apply open_get_serial | intros _].
  apply open_get_version.
Qed.

(** X9: [main] is its commands followed by [close].  If a command
    raises, whatever the exception, [main] ends with that exception in
    the state the command left, and [close] has not been called: the
    port stays open.  If every command goes through, [main] ends as the
    one call of [close] on its port does, made in the state the commands
    left.  So [close] is called at most once, as the last thing [main]
    does, and only after success. *)
Theorem port_closed_last_and_only_after_success
        (args : Args.t) (s : loc) (p : process C) :
  main args s p = io_bind (commands args s) (fun _ => port_close s) p
  /\ (forall e p1,
        commands args s p = (inl e, p1) ->
        main args s p = (inl e, p1) /\ closes p1 = closes p)
  /\ (forall u p1,
        commands args s p = (inr u, p1) ->
        main args s p = port_close s p1
        /\ closes p1 = closes p
        /\ closes (snd (main args s p)) = closes p ++ [s])
  /\ ((closes (snd (main args s p)) = closes p
       /\ exists e, fst (main args s p) = inl e)
      \/ (closes (snd (main args s p)) = closes p ++ [s]
          /\ ((exists a, fst (main args s p) = inr a)
              \/ exists msg, fst (main args s p) = inl (ChannelError msg)))).
Proof.
  pose proof (open_commands args s p) as Hopen.
  split; [apply main_commands | split; [ | split]].
  - intros e p1 Hc. rewrite main_commands. unfold io_bind. rewrite Hc in *.
    split; [reflexivity | exact Hopen].
  - intros u p1 Hc. rewrite main_commands. unfold io_bind. rewrite Hc in *.
    cbn [snd] in Hopen. split; [reflexivity | split; [exact Hopen | ]].
    destruct (port_close_run s p1) as (_ & _ & Hcl & _). now rewrite Hcl, Hopen.
  - change (closes_last s (main args s) p). unfold main.
    apply closes_last_bind; [apply open_call | intros _ p0].
    apply closes_last_bind; [apply open_all_relays | intros _ p1].
    apply closes_last_bind; [apply open_relay_on | intros _ p2].
    apply closes_last_bind; [apply open_relay_off | intros _ p3].
    apply closes_last_bind; [apply open_relays | intros _ p4].
    apply closes_last_bind; [apply open_get_serial | intros _ p5].
    apply closes_last_bind; [apply open_get_version | intros _ p6].
    apply closes_last_close.
Qed.

(** ** The exceptions the tool can end with *)

Lemma only_ret {A : Type} (P : exn -> bool) (a : A) :
  raises_only P (io_ret (C := C) a).
Proof. intros p e He. discriminate. Qed.

Lemma only_print (P : exn -> bool) (line : string) :
  raises_only P (print (C := C) line).
Proof. intros p e He. discriminate. Qed.

Lemma only_bind {A B : Type} (P : exn -> bool) (Q : A -> Prop)
      (m : IO C A) (k : A -> IO C B) :
  raises_only P m ->
  (forall p a, fst (m p) = inr a -> Q a) ->
  (forall a, Q a -> raises_only P (k a)) ->
  raises_only P (io_bind m k).
Proof.
  intros Hm HQ Hk p e. unfold io_bind.
  specialize (Hm p). specialize (HQ p).
  destruct (m p) as [[e1 | a] p1]; cbn [fst] in *.
  - intros He. apply Hm. congruence.
  - apply (Hk a (HQ a eq_refl)).
Qed.

Lemma only_for_each {A : Type} (P : exn -> bool) (xs : list A)
      (body : A -> IO C unit) :
  (forall x, In x xs -> raises_only P (body x)) ->
  raises_only P (for_each xs body).
Proof.
  induction xs as [| x rest IH]; intros Hbody; cbn [for_each].
  - apply only_ret.
  - apply (only_bind P (fun _ => True)).
    + apply Hbody. now left.
    + trivial.
    + intros _ _. apply IH. intros y Hy. apply Hbody. now right.
Qed.

Lemma only_call {A : Type} (P : exn -> bool) (m : M C A) :
  (forall w e, fst (m w) = inl e -> P e = true) ->
  raises_only P (call m).
Proof. intros Hm p e. rewrite call_run. apply Hm. Qed.

Lemma query_error {A : Type} (op : Z) (size : nat) (k : bytes -> result A)
      (w : world C) (e : exn) :
  fst ((data <- request op size ;; lift (k data)) w) = inl e ->
  (exists msg, e = ChannelError msg) \/ exists bs, k bs = inl e.
Proof.
  rewrite query_result.
  destruct (fst (request op size w)) as [e' | bs] eqn:Hq.
  - intros He. left. apply (request_error op size w). congruence.
  - intros He. right. now exists bs.
Qed.

Lemma set_all_cli (state : bool) (w : world C) (e : exn) :
  fst (set_all state w) = inl e -> cli_error e = true.
Proof.
  rewrite set_all_eq. intros He.
  now destruct (fd_write_error _ w e He) as [msg ->].
Qed.

Lemma set_state_cli (relay : Z) (state : bool) (w : world C) (e : exn) :
  0 <= relay <= 7 ->
  fst (set_state relay state w) = inl e -> cli_error e = true.
Proof.
  intros Hr. rewrite set_state_run by exact Hr. intros He.
  now destruct (fd_write_error _ w e He) as [msg ->].
Qed.

Lemma get_states_cli (w : world C) (e : exn) :
  fst (get_states w) = inl e -> cli_error e = true.
Proof.
  rewrite get_states_eq. intros He.
  destruct (query_error 91 1 states_of w e He) as [[msg ->] | [bs Hbs]];
    [reflexivity | ].
  now rewrite (states_of_error bs e Hbs).
Qed.

Lemma get_serial_cli (w : world C) (e : exn) :
  fst (get_serial w) = inl e -> cli_error e = true.
Proof.
  rewrite get_serial_eq. intros He.
  destruct (query_error 56 8 serial_of w e He) as [[msg ->] | [bs Hbs]];
    [reflexivity | ].
  now destruct (serial_of_error bs e Hbs) as [-> | [i ->]].
Qed.

Lemma get_sw_version_cli (w : world C) (e : exn) :
  fst (get_sw_version w) = inl e -> cli_error e = true.
Proof.
  rewrite get_sw_version_eq. intros He.
  destruct (query_error 90 2 version_of w e He) as [[msg ->] | [bs Hbs]];
    [reflexivity | ].
  now rewrite (version_of_error bs e Hbs).
Qed.

Lemma get_sw_version_pair (w : world C) (t : list Z) :
  fst (get_sw_version w) = inr t -> exists a b, t = [a; b].
Proof.
  rewrite get_sw_version_eq, query_result.
  destruct (fst (request 90 2 w)) as [e | bs]; [discriminate | ].
  intros Ht. destruct (version_of_ok bs t Ht) as (b0 & b1 & _ & ->).
  now exists (byte_val b0), (byte_val b1).
Qed.

Lemma only_relay_loop (state : bool) (chosen : list Z) :
  Forall (fun relay => 0 <= relay <= 7) chosen ->
  raises_only cli_error
              (for_each chosen (fun relay => call (C := C) (set_state relay state))).
Proof.
  intros Hall. apply only_for_each. intros relay Hin.
  apply only_call. intros w e. apply set_state_cli.
  exact (proj1 (Forall_forall _ _) Hall relay Hin).
Qed.

(** X10: with relay numbers as the argument parser admits them (0 to
    7), an exception that ends [main] is the short-read [OSError], the
    [UnicodeDecodeError] of the serial number, or the port's own: the
    range guard of [set_state] never fires, and the indexing of the
    version tuple never fails. *)
Theorem cli_exceptions (args : Args.t) (s : loc) (p : process C) (e : exn) :
  Forall (fun relay => 0 <= relay <= 7)
         (chosen_relays (Args.relay_on args) ++ chosen_relays (Args.relay_off args)) ->
  fst (main args s p) = inl e ->
  cli_error e = true.
Proof.
  intros Hall. apply Forall_app in Hall as [Hon Hoff].
  revert p e. change (raises_only cli_error (main args s)). unfold main.
  apply (only_bind _ (fun _ => True));
    [apply only_call; discriminate | trivial | intros _ _].
  apply (only_bind _ (fun _ => True)); [ | trivial | intros _ _].
  { unfold handle_all_relays. destruct (Args.all_relays args) as [v | ];
      [ | apply only_ret].
    destruct (String.eqb v "on");
      [apply only_call; intros w e; apply set_all_cli | ].
    destruct (String.eqb v "off");
      [apply only_call; intros w e; apply set_all_cli | apply only_ret]. }
  apply (only_bind _ (fun _ => True)); [ | trivial | intros _ _].
  { unfold handle_relay_on.
    destruct (Args.relay_on args) as [[| relay rest] | ]; try apply only_ret.
    now apply only_relay_loop. }
  apply (only_bind _ (fun _ => True)); [ | trivial | intros _ _].
  { unfold handle_relay_off.
    destruct (Args.relay_off args) as [[| relay rest] | ]; try apply only_ret.
    now apply only_relay_loop. }
  apply (only_bind _ (fun _ => True)); [ | trivial | intros _ _].
  { unfold handle_relays. destruct (Args.relays args); [ | apply only_ret].
    apply (only_bind _ (fun _ => True));
      [apply only_call; intros w e; apply get_states_cli | trivial | intros states _].
    apply (only_bind _ (fun _ => True)); [apply only_print | trivial | intros _ _].
    apply only_for_each. intros i _. apply only_print. }
  apply (only_bind _ (fun _ => True)); [ | trivial | intros _ _].
  { unfold handle_get_serial. destruct (Args.get_serial args); [ | apply only_ret].
    apply (only_bind _ (fun _ => True));
      [apply only_call; intros w e; apply get_serial_cli | trivial | intros serial _].
    apply only_print. }
  apply (only_bind _ (fun _ => True)); [ | trivial | intros _ _].
  { unfold handle_get_version. destruct (Args.get_version args); [ | apply only_ret].
    apply (only_bind _ (fun t => exists a b, t = [a; b])).
    - apply only_call. intros w e. apply get_sw_version_cli.
    - intros p0 t. rewrite call_run. apply get_sw_version_pair.
    - intros t (a & b & ->).
      apply (only_bind _ (fun _ => True));
        [apply only_call; discriminate | trivial | intros v0 _].
      apply (only_bind _ (fun _ => True));
        [apply only_call; discriminate | trivial | intros v1 _].
      apply only_print. }
  intros p0 e0. unfold port_close.
  destruct (close (heap (codec p0) s)) as [[msg | u] c']; cbn [fst]; [ | discriminate].
  intros He. injection He as <-. reflexivity.
Qed.

(** ** What the queries print *)








(** X13: a refused write ends the whole run: when the port turns down
    the command of [-a on], [main] ends with the port's exception, and
    whatever other options were given no further command is sent,
    nothing is printed and the port is not closed. *)
Theorem refused_write_ends_main
        (args : Args.t) (s : loc) (p : process C) (msg : string) (c1 : C) :
  Args.all_relays args = Some "on" ->
  write (heap (codec p) s) [100] = (inl msg, c1) ->
  fst (main args s p) = inl (ChannelError msg)
  /\ log (codec (snd (main args s p))) = log (codec p) ++ [EvWrite s [100]]
  /\ stdout (snd (main args s p)) = stdout p
  /\ closes (snd (main args s p)) = closes p.
Proof.
  intros Hall Hw.
  assert (Hrun : main args s p
                 = (inl (ChannelError msg),
                    {| codec := called s c1 (EvWrite s [100])
                                       {| self := {| fd := s |};
                                          heap := heap (codec p);
                                          log := log (codec p) |};
                       stdout := stdout p; closes := closes p |})).
  { rewrite main_starts. unfold handle_all_relays.
    rewrite Hall. cbn [String.eqb Ascii.eqb Bool.eqb].
    unfold io_bind at 1. rewrite call_run, set_all_eq, fd_write_run.
    unfold chan. cbn [codec self fd heap]. rewrite Hw. reflexivity. }
  rewrite Hrun. repeat split.
Qed.

End MainProperties.

(** * The further properties on the fake ports *)

Lemma written_bytes_identify_call_witness :
  SetState 3 true = SetState 3 true.
Proof.
  exact (written_bytes_identify_call
           (SetState 3 true) (SetState 3 true) (fake_world []) (fake_world [])
           [104] [] [] eq_refl eq_refl).
Defined.

Lemma only_bytes_are_written_witness :
  Forall (fun z => 0 <= z <= 255) [92; 10].
Proof.
  apply (only_bytes_are_written (SetStates (PyInt 10)) (fake_world [])
                                [EvWrite 0%nat [92; 10]] 0%nat [92; 10]).
  - reflexivity.
  - left. reflexivity.
Defined.


(** Five bytes for the serial number are turned down. *)
Lemma wrong_length_reply_rejected_witness :
  exists msg,
    fst (invoke GetSerial (fake_world [inr (firstn 5 serial_ABCD1234)]))
    = inl (OSError msg).
Proof.
  eapply (wrong_length_reply_rejected
            GetSerial (fake_world [inr (firstn 5 serial_ABCD1234)])
            [56] 8 _ _ (firstn 5 serial_ABCD1234)).
  - reflexivity.
  - reflexivity.
  - reflexivity.
  - reflexivity.
  - simpl. lia.
Defined.

Lemma serial_is_eight_ascii_characters_witness :
  String.length "ABCD1234" = 8%nat
  /\ forall a, In a (list_ascii_of_string "ABCD1234") -> (N_of_ascii a < 128)%N.
Proof.
  exact (serial_is_eight_ascii_characters
           (fake_world [inr serial_ABCD1234]) "ABCD1234" eq_refl).
Defined.

(** [set_states(True)] is turned down although [True == 1]. *)
Lemma set_states_accepts_only_small_ints_witness :
  (exists msg, set_states (PyBool true) (fake_world [])
               = (inl (ValueError msg), fake_world []))
  /\ log (snd (set_states (PyInt 10) (fake_world []))) <> log (fake_world []).
Proof.
  split.
  - apply (set_states_accepts_only_small_ints (PyBool true) (fake_world [])).
    intros m Hm. discriminate.
  - apply (set_states_accepts_only_small_ints (PyInt 10) (fake_world [])).
    exists 10. split; [reflexivity | lia].
Defined.

(** The same channel behind another address and after other calls:
    [get_states] answers the same. *)
Lemma outcome_depends_on_channel_only_witness :
  fst (invoke GetStates (fake_world [inr [x0a]]))
  = fst (invoke GetStates
                {| self := {| fd := 4%nat |};
                   heap := heap (fake_world [inr [x0a]]);
                   log := [EvWrite 4%nat [100]] |}).
Proof.
  exact (proj1 (outcome_depends_on_channel_only
                  GetStates (fake_world [inr [x0a]])
                  {| self := {| fd := 4%nat |};
                     heap := heap (fake_world [inr [x0a]]);
                     log := [EvWrite 4%nat [100]] |}
                  eq_refl)).
Defined.

(** [-a on -n 1 -n 2 -f 7]: on a port that refuses writes the run ends
    with the port's exception and the port is not closed; on a port
    that takes them the port is closed, once. *)
Lemma port_closed_last_and_only_after_success_witness :
  (fst (main control_args 0%nat (broken_process "port closed"))
   = inl (ChannelError "port closed")
   /\ closes (snd (main control_args 0%nat (broken_process "port closed"))) = [])
  /\ closes (snd (main control_args 0%nat recorder_process)) = [0%nat].
Proof.
  split.
  - destruct (port_closed_last_and_only_after_success
                control_args 0%nat (broken_process "port closed"))
      as (_ & Hfail & _).
    assert (Hc : commands control_args 0%nat (broken_process "port closed")
                 = (inl (ChannelError "port closed"),
                    snd (commands control_args 0%nat (broken_process "port closed"))))
      by reflexivity.
    destruct (Hfail _ _ Hc) as [Hmain Hcl].
    rewrite Hmain. split; [reflexivity | exact Hcl].
  - destruct (port_closed_last_and_only_after_success
                control_args 0%nat recorder_process)
      as (_ & _ & Hok & _).
    assert (Hc : commands control_args 0%nat recorder_process
                 = (inr tt, snd (commands control_args 0%nat recorder_process)))
      by reflexivity.
    destruct (Hok _ _ Hc) as (_ & _ & Hcl).
    exact Hcl.
Defined.

Lemma recorder_accepting : accepting Recorder.
Proof. intros c data. reflexivity. Qed.

(** [-a on -n 1 -n 2 -f 7] goes out as 100, 102, 103, 118. *)
Lemma control_options_in_order_witness :
  log (codec (snd (main control_args 0%nat recorder_process)))
  = [EvWrite 0%nat [100]; EvWrite 0%nat [102]; EvWrite 0%nat [103];
     EvWrite 0%nat [118]]
  /\ stdout (snd (main control_args 0%nat recorder_process)) = []
  /\ closes (snd (main control_args 0%nat recorder_process)) = [0%nat].
Proof.
  apply (control_options_in_order control_args 0%nat recorder_process
                                  recorder_accepting).
  - repeat (apply Forall_cons; [lia | ]). apply Forall_nil.
  - reflexivity.
  - reflexivity.
  - reflexivity.
Defined.

(** [-n 1 -g -i] on a board that does not answer ends with the
    short-read error of [get_states]. *)
Lemma cli_exceptions_witness :
  cli_error (short_read "get_states") = true.
Proof.
  apply (cli_exceptions query_args 0%nat (fake_process [])).
  - repeat (apply Forall_cons; [lia | ]). apply Forall_nil.
  - reflexivity.
Defined.



(** [-a on -n 1 -n 2 -f 7] on a port that refuses writes: one write
    tried, nothing more, port left open. *)
Lemma refused_write_ends_main_witness :
  fst (main control_args 0%nat (broken_process "port closed"))
  = inl (ChannelError "port closed")
  /\ log (codec (snd (main control_args 0%nat (broken_process "port closed"))))
     = [EvWrite 0%nat [100]]
  /\ stdout (snd (main control_args 0%nat (broken_process "port closed"))) = []
  /\ closes (snd (main control_args 0%nat (broken_process "port closed"))) = [].
Proof.
  eapply (refused_write_ends_main control_args 0%nat
                                  (broken_process "port closed") "port closed").
  - reflexivity.
  - reflexivity.
Defined.
